(** * AnonVerse: the group ledger (contracts/AnonVerse.sol) and the
      client-side message cipher (utils/crypto.ts)

    The ledger is embedded as explicit state passing in a small
    reader/state/failure monad: a transaction either commits a new
    ledger or fails, and a failed transaction leaves no trace.  The
    cipher is embedded over JavaScript strings (sequences of UTF-16
    code units) and byte arrays. *)

From Stdlib Require Import ZArith NArith List String Ascii Bool Lia.
From stdpp Require Import base option list gmap sets strings.

Local Open Scope N_scope.

Module AnonVerse.

(** ** Data model *)

(** Account identities ([address]) and encrypted-value handles
    ([euint32], a bytes32 reference) are unsigned numbers. *)
Abbreviation address := N.
Abbreviation euint32 := N.

(** [uint256] is carried by [N]; Solidity 0.8 arithmetic is checked, so
    an addition whose result exceeds [MAX_UINT256] does not wrap: it
    panics with code 0x11. *)
Definition MAX_UINT256 : N := 2 ^ 256 - 1.

Record GroupMetadata : Type := mkGroup {
  name : string;
  creator : address;
  secret : euint32;
  createdAt : N;
  memberCount : N;
  messageCount : N
}.

Record Message : Type := mkMessage {
  sender : address;
  cipherText : string;
  timestamp : N
}.

Inductive Event : Type :=
| GroupCreated (groupId : N) (who : address) (label : string) (encryptedKey : euint32)
| MemberJoined (groupId : N) (member : address)
| MessagePosted (groupId : N) (who : address) (body : string) (time : N).

(** Modelled from the spec: the confidential value store (the
    [FHE] library and its coprocessor) is not part of the sources.  It
    keeps, per handle, the value the ciphertext stands for, and the
    access control list as an add-only set of (handle, identity)
    pairs; handles are allocated in sequence. *)
Record FHEStore : Type := mkFHE {
  plaintexts : gmap N N;
  acl : gset (N * N);
  nextHandle : N
}.

Record Ledger : Type := mkLedger {
  groups : list GroupMetadata;
  groupMembers : gmap (N * N) bool;
  memberLists : gmap N (list N);
  groupMessages : gmap N (list Message);
  events : list Event;
  fhe : FHEStore
}.

(** What a transaction sees of its context: [msg.sender],
    [block.timestamp], and the 32-bit draw the coprocessor's random
    generator makes for it. *)
Record Env : Type := mkEnv {
  msg_sender : address;
  block_timestamp : N;
  entropy : N
}.

Inductive Failure : Type :=
| Revert (reason : string)
| Panic (code : N).

Inductive Outcome (A : Type) : Type :=
| Ok (a : A) (l : Ledger)
| Fail (f : Failure).
Arguments Ok {A} a l.
Arguments Fail {A} f.

(** ** The transaction monad *)

Definition Tx (A : Type) : Type := Env -> Ledger -> Outcome A.

Definition ret {A : Type} (a : A) : Tx A := fun _ l => Ok a l.

Definition bind {A B : Type} (m : Tx A) (k : A -> Tx B) : Tx B :=
  fun env l =>
    match m env l with
    | Ok a l' => k a env l'
    | Fail f => Fail f
    end.

Declare Scope tx_scope.
Delimit Scope tx_scope with tx.
Notation "'let!' x ':=' m 'in' k" := (bind m (fun x => k))
  (at level 10, x name, m at level 100, k at level 200) : tx_scope.
Notation "m '>>' k" := (bind m (fun _ => k))
  (at level 90, right associativity) : tx_scope.

Definition require (cond : bool) (reason : string) : Tx unit :=
  fun _ l => if cond then Ok tt l else Fail (Revert reason).

Definition panic {A : Type} (code : N) : Tx A := fun _ _ => Fail (Panic code).

Definition gets {A : Type} (f : Ledger -> A) : Tx A := fun _ l => Ok (f l) l.

Definition asks {A : Type} (f : Env -> A) : Tx A := fun env l => Ok (f env) l.

Definition modify (f : Ledger -> Ledger) : Tx unit := fun _ l => Ok tt (f l).

(** [a + b] on [uint256]: panic 0x11 on overflow. *)
Definition checked_add (a b : N) : Tx N :=
  if a + b <=? MAX_UINT256 then ret (a + b) else panic 17.

(** ** Storage access *)

Definition set_groups (f : list GroupMetadata -> list GroupMetadata) (l : Ledger) : Ledger :=
  mkLedger (f (groups l)) (groupMembers l) (memberLists l) (groupMessages l) (events l) (fhe l).

Definition set_groupMembers (f : gmap (N * N) bool -> gmap (N * N) bool) (l : Ledger) : Ledger :=
  mkLedger (groups l) (f (groupMembers l)) (memberLists l) (groupMessages l) (events l) (fhe l).

Definition set_memberLists (f : gmap N (list N) -> gmap N (list N)) (l : Ledger) : Ledger :=
  mkLedger (groups l) (groupMembers l) (f (memberLists l)) (groupMessages l) (events l) (fhe l).

Definition set_groupMessages (f : gmap N (list Message) -> gmap N (list Message)) (l : Ledger) : Ledger :=
  mkLedger (groups l) (groupMembers l) (memberLists l) (f (groupMessages l)) (events l) (fhe l).

Definition set_events (f : list Event -> list Event) (l : Ledger) : Ledger :=
  mkLedger (groups l) (groupMembers l) (memberLists l) (groupMessages l) (f (events l)) (fhe l).

Definition set_fhe (f : FHEStore -> FHEStore) (l : Ledger) : Ledger :=
  mkLedger (groups l) (groupMembers l) (memberLists l) (groupMessages l) (events l) (f (fhe l)).

(** A Solidity mapping is total: an absent key reads as the zero value
    of its type. *)
Definition member_flag (l : Ledger) (groupId : N) (account : address) : bool :=
  default false (groupMembers l !! (groupId, account)).

Definition member_list (l : Ledger) (groupId : N) : list N :=
  default [] (memberLists l !! groupId).

Definition message_list (l : Ledger) (groupId : N) : list Message :=
  default [] (groupMessages l !! groupId).

Definition group_count (l : Ledger) : N := N.of_nat (length (groups l)).

(** [groups[groupId]]: an index past the end panics with code 0x32. *)
Definition group_at (groupId : N) : Tx GroupMetadata :=
  fun env l =>
    match groups l !! N.to_nat groupId with
    | Some g => Ok g l
    | None => Fail (Panic 50)
    end.

Definition emit (e : Event) : Tx unit := modify (set_events (fun es => es ++ [e])).

(** ** The confidential value store *)

(** Modelled from the spec: [FHE.randEuint32()], a fresh handle on a
    random 32-bit value. *)
Definition FHE_randEuint32 : Tx euint32 :=
  fun env l =>
    let h := nextHandle (fhe l) in
    Ok h (set_fhe (fun s => mkFHE (<[h := entropy env mod 2 ^ 32]> (plaintexts s)) (acl s) (h + 1)) l).

(** Modelled from the spec: [FHE.rem(x, bound)], a fresh handle on the
    remainder, computed without disclosing the operand. *)
Definition FHE_rem (x : euint32) (bound : N) : Tx euint32 :=
  fun env l =>
    let h := nextHandle (fhe l) in
    let v := default 0 (plaintexts (fhe l) !! x) mod bound in
    Ok h (set_fhe (fun s => mkFHE (<[h := v]> (plaintexts s)) (acl s) (h + 1)) l).

(** Modelled from the spec: [FHE.allow(handle, account)] adds the
    account to the handle's access control list; granting twice is a
    no-op. *)
Definition FHE_allow (handle : euint32) (account : address) : Tx unit :=
  modify (set_fhe (fun s => mkFHE (plaintexts s) ({[ (handle, account) ]} ∪ acl s) (nextHandle s))).

Section Contract.

(** [address(this)], the ledger's own identity. *)
Variable this : address.

(** Modelled from the spec: [FHE.allowThis(handle)] grants the ledger
    itself standing access. *)
Definition FHE_allowThis (handle : euint32) : Tx unit := FHE_allow handle this.

Local Open Scope tx_scope.

(** ** The contract *)

Definition validGroup (groupId : N) : Tx unit :=
  let! n := gets group_count in
  require (groupId <? n) "Invalid group".

Definition createGroup (name : string) : Tx (N * euint32) :=
  require (0 <? String.length name)%nat "Group name required" >>
  let! r := FHE_randEuint32 in
  let! secret := FHE_rem r 1000000 in
  let! groupId := gets group_count in
  let! caller := asks msg_sender in
  let! now := asks block_timestamp in
  modify (set_groups (fun gs => gs ++ [mkGroup name caller secret now 1 0])) >>
  modify (set_groupMembers (insert (groupId, caller) true)) >>
  let! members := gets (fun l => member_list l groupId) in
  modify (set_memberLists (insert groupId (members ++ [caller]))) >>
  FHE_allow secret caller >>
  FHE_allowThis secret >>
  emit (GroupCreated groupId caller name secret) >>
  ret (groupId, secret).

Definition joinGroup (groupId : N) : Tx unit :=
  validGroup groupId >>
  let! caller := asks msg_sender in
  let! joined := gets (fun l => member_flag l groupId caller) in
  require (negb joined) "Already joined" >>
  modify (set_groupMembers (insert (groupId, caller) true)) >>
  let! members := gets (fun l => member_list l groupId) in
  modify (set_memberLists (insert groupId (members ++ [caller]))) >>
  let! g := group_at groupId in
  let! n := checked_add (memberCount g) 1 in
  modify (set_groups (fun gs =>
    <[N.to_nat groupId := mkGroup (name g) (creator g) (secret g) (createdAt g) n (messageCount g)]> gs)) >>
  let! g' := group_at groupId in
  FHE_allow (secret g') caller >>
  emit (MemberJoined groupId caller).

Definition postMessage (groupId : N) (cipherText : string) : Tx unit :=
  validGroup groupId >>
  let! caller := asks msg_sender in
  let! joined := gets (fun l => member_flag l groupId caller) in
  require joined "Join first" >>
  require (0 <? String.length cipherText)%nat "Message required" >>
  let! now := asks block_timestamp in
  let! msgs := gets (fun l => message_list l groupId) in
  modify (set_groupMessages (insert groupId (msgs ++ [mkMessage caller cipherText now]))) >>
  let! g := group_at groupId in
  let! n := checked_add (messageCount g) 1 in
  modify (set_groups (fun gs =>
    <[N.to_nat groupId := mkGroup (name g) (creator g) (secret g) (createdAt g) (memberCount g) n]> gs)) >>
  emit (MessagePosted groupId caller cipherText now).

Definition getGroup (groupId : N) : Tx (string * address * N * N * N * euint32) :=
  validGroup groupId >>
  let! group := group_at groupId in
  ret (name group, creator group, createdAt group, memberCount group, messageCount group, secret group).

Definition getGroupCount : Tx N := gets group_count.

Definition getGroupSecret (groupId : N) : Tx euint32 :=
  validGroup groupId >>
  let! group := group_at groupId in
  ret (secret group).

Definition listMembers (groupId : N) : Tx (list N) :=
  validGroup groupId >>
  gets (fun l => member_list l groupId).

Definition isMember (groupId : N) (account : address) : Tx bool :=
  validGroup groupId >>
  gets (fun l => member_flag l groupId account).

Definition getMessageCount (groupId : N) : Tx N :=
  validGroup groupId >>
  gets (fun l => N.of_nat (length (message_list l groupId))).

Definition getMessage (groupId : N) (index : N) : Tx Message :=
  validGroup groupId >>
  let! msgs := gets (fun l => message_list l groupId) in
  require (index <? N.of_nat (length msgs)) "Invalid message index" >>
  match msgs !! N.to_nat index with
  | Some m => ret m
  | None => panic 50
  end.

(** ** Transactions, executions and reachable ledgers *)

Inductive Call : Type :=
| CreateGroup (name : string)
| JoinGroup (groupId : N)
| PostMessage (groupId : N) (cipherText : string)
| GetGroup (groupId : N)
| GetGroupCount
| GetGroupSecret (groupId : N)
| ListMembers (groupId : N)
| IsMember (groupId : N) (account : address)
| GetMessageCount (groupId : N)
| GetMessage (groupId : N) (index : N).

Inductive Return : Type :=
| RCreated (groupId : N) (encryptedKey : euint32)
| RUnit
| RGroup (g : string * address * N * N * N * euint32)
| RNumber (n : N)
| RHandle (h : euint32)
| RMembers (ms : list N)
| RBool (b : bool)
| RMessage (m : Message).

Definition call (c : Call) : Tx Return :=
  match c with
  | CreateGroup name => let! r := createGroup name in ret (RCreated (fst r) (snd r))
  | JoinGroup groupId => joinGroup groupId >> ret RUnit
  | PostMessage groupId cipherText => postMessage groupId cipherText >> ret RUnit
  | GetGroup groupId => let! g := getGroup groupId in ret (RGroup g)
  | GetGroupCount => let! n := getGroupCount in ret (RNumber n)
  | GetGroupSecret groupId => let! h := getGroupSecret groupId in ret (RHandle h)
  | ListMembers groupId => let! ms := listMembers groupId in ret (RMembers ms)
  | IsMember groupId account => let! b := isMember groupId account in ret (RBool b)
  | GetMessageCount groupId => let! n := getMessageCount groupId in ret (RNumber n)
  | GetMessage groupId index => let! m := getMessage groupId index in ret (RMessage m)
  end.

(** The functions the contract declares [view]. *)
Definition is_view (c : Call) : bool :=
  match c with
  | CreateGroup _ | JoinGroup _ | PostMessage _ _ => false
  | _ => true
  end.

(** A transaction commits its ledger when it returns and is rolled back
    whole when it fails. *)
Definition step (env : Env) (c : Call) (l : Ledger) : Ledger :=
  match call c env l with
  | Ok _ l' => l'
  | Fail _ => l
  end.

Definition succeeds (env : Env) (c : Call) (l : Ledger) : bool :=
  match call c env l with
  | Ok _ _ => true
  | Fail _ => false
  end.

Fixpoint run (tr : list (Env * Call)) (l : Ledger) : Ledger :=
  match tr with
  | [] => l
  | (env, c) :: tr' => run tr' (step env c l)
  end.

(** The ledger at deployment. *)
Definition initial : Ledger := mkLedger [] ∅ ∅ ∅ [] (mkFHE ∅ ∅ 0).

Inductive reachable : Ledger -> Prop :=
| reachable_initial : reachable initial
| reachable_step env c l : reachable l -> reachable (step env c l).

(** Number of [createGroup] transactions of an execution that
    succeeded. *)
Fixpoint groups_created (tr : list (Env * Call)) (l : Ledger) : N :=
  match tr with
  | [] => 0
  | (env, c) :: tr' =>
      (match c with
       | CreateGroup _ => if succeeds env c l then 1 else 0
       | _ => 0
       end) + groups_created tr' (step env c l)
  end.

(** The messages an execution appended to a group, oldest first. *)
Fixpoint messages_posted (groupId : N) (tr : list (Env * Call)) (l : Ledger) : list Message :=
  match tr with
  | [] => []
  | (env, c) :: tr' =>
      (match c with
       | PostMessage g body =>
           if succeeds env c l && (g =? groupId)
           then [mkMessage (msg_sender env) body (block_timestamp env)]
           else []
       | _ => []
       end) ++ messages_posted groupId tr' (step env c l)
  end.

(** ** Committed effects of the three writes, in closed form *)

Definition createGroup_post (name : string) (env : Env) (l : Ledger) : Ledger :=
  let h := nextHandle (fhe l) in
  let groupId := group_count l in
  let caller := msg_sender env in
  let r := entropy env mod 2 ^ 32 in
  mkLedger
    (groups l ++ [mkGroup name caller (h + 1) (block_timestamp env) 1 0])
    (<[(groupId, caller) := true]> (groupMembers l))
    (<[groupId := member_list l groupId ++ [caller]]> (memberLists l))
    (groupMessages l)
    (events l ++ [GroupCreated groupId caller name (h + 1)])
    (mkFHE (<[h + 1 := r mod 1000000]> (<[h := r]> (plaintexts (fhe l))))
           ({[ (h + 1, this) ]} ∪ ({[ (h + 1, caller) ]} ∪ acl (fhe l)))
           (h + 1 + 1)).

Definition joinGroup_post (groupId : N) (g : GroupMetadata) (env : Env) (l : Ledger) : Ledger :=
  let caller := msg_sender env in
  mkLedger
    (<[N.to_nat groupId :=
         mkGroup (name g) (creator g) (secret g) (createdAt g) (memberCount g + 1) (messageCount g)]>
       (groups l))
    (<[(groupId, caller) := true]> (groupMembers l))
    (<[groupId := member_list l groupId ++ [caller]]> (memberLists l))
    (groupMessages l)
    (events l ++ [MemberJoined groupId caller])
    (mkFHE (plaintexts (fhe l)) ({[ (secret g, caller) ]} ∪ acl (fhe l)) (nextHandle (fhe l))).

Definition postMessage_post (groupId : N) (cipherText : string) (g : GroupMetadata)
    (env : Env) (l : Ledger) : Ledger :=
  let caller := msg_sender env in
  let now := block_timestamp env in
  mkLedger
    (<[N.to_nat groupId :=
         mkGroup (name g) (creator g) (secret g) (createdAt g) (memberCount g) (messageCount g + 1)]>
       (groups l))
    (groupMembers l)
    (memberLists l)
    (<[groupId := message_list l groupId ++ [mkMessage caller cipherText now]]> (groupMessages l))
    (events l ++ [MessagePosted groupId caller cipherText now])
    (fhe l).

(** ** The ledger invariant *)

Record consistent (l : Ledger) : Prop := mkConsistent {
  members_counted : forall groupId g,
    groups l !! N.to_nat groupId = Some g ->
    memberCount g = N.of_nat (length (member_list l groupId));
  messages_counted : forall groupId g,
    groups l !! N.to_nat groupId = Some g ->
    messageCount g = N.of_nat (length (message_list l groupId));
  members_distinct : forall groupId, NoDup (member_list l groupId);
  members_flagged : forall groupId account,
    member_flag l groupId account = true <-> account ∈ member_list l groupId;
  creator_first : forall groupId g,
    groups l !! N.to_nat groupId = Some g ->
    head (member_list l groupId) = Some (creator g);
  unborn_members : forall groupId,
    group_count l <= groupId -> member_list l groupId = [];
  unborn_messages : forall groupId,
    group_count l <= groupId -> message_list l groupId = [];
  members_allowed : forall groupId g account,
    groups l !! N.to_nat groupId = Some g ->
    member_flag l groupId account = true ->
    (secret g, account) ∈ acl (fhe l);
  ledger_allowed : forall groupId g,
    groups l !! N.to_nat groupId = Some g ->
    (secret g, this) ∈ acl (fhe l);
  secrets_minted : forall groupId g,
    groups l !! N.to_nat groupId = Some g ->
    secret g < nextHandle (fhe l) /\
    exists v, plaintexts (fhe l) !! secret g = Some v /\ v < 1000000
}.

(** [extends l l']: every group of [l] is still there in [l'], with
    the same identity, counters that did not go down, the members it
    had and the messages it had, in place. *)
Definition extends (l l' : Ledger) : Prop :=
  forall groupId g,
    groups l !! N.to_nat groupId = Some g ->
    exists g',
      groups l' !! N.to_nat groupId = Some g'
      /\ name g' = name g /\ creator g' = creator g
      /\ createdAt g' = createdAt g /\ secret g' = secret g
      /\ memberCount g <= memberCount g' /\ messageCount g <= messageCount g'
      /\ (forall account,
            member_flag l groupId account = true -> member_flag l' groupId account = true)
      /\ message_list l groupId `prefix_of` message_list l' groupId
      /\ member_list l groupId `prefix_of` member_list l' groupId.

(** ** Histories and observations *)

(** What a call answers, the ledger it returns left aside. *)
Definition answer {A : Type} (o : Outcome A) : A + Failure :=
  match o with
  | Ok a _ => inl a
  | Fail f => inr f
  end.

(** The group a call is about: the one it reads or writes, and for
    [createGroup] the one it is about to create. *)
Definition group_of (c : Call) (l : Ledger) : option N :=
  match c with
  | CreateGroup _ => Some (group_count l)
  | JoinGroup g | PostMessage g _ | GetGroup g | GetGroupSecret g | ListMembers g
  | IsMember g _ | GetMessageCount g | GetMessage g _ => Some g
  | GetGroupCount => None
  end.

(** The identities an execution added to a group's member list, oldest
    first: the creator, then the joiners. *)
Fixpoint members_added (groupId : N) (tr : list (Env * Call)) (l : Ledger) : list N :=
  match tr with
  | [] => []
  | (env, c) :: tr' =>
      (match c with
       | CreateGroup _ =>
           if succeeds env c l && (group_count l =? groupId) then [msg_sender env] else []
       | JoinGroup g =>
           if succeeds env c l && (g =? groupId) then [msg_sender env] else []
       | _ => []
       end) ++ members_added groupId tr' (step env c l)
  end.

(** What a reader of the event log learns from one event: a message of
    a group, a member of a group, a group. *)
Definition replay_message (groupId : N) (e : Event) : list Message :=
  match e with
  | MessagePosted g who body time => if g =? groupId then [mkMessage who body time] else []
  | _ => []
  end.

Definition replay_member (groupId : N) (e : Event) : list N :=
  match e with
  | GroupCreated g who _ _ => if g =? groupId then [who] else []
  | MemberJoined g who => if g =? groupId then [who] else []
  | MessagePosted _ _ _ _ => []
  end.

Definition replay_group (e : Event) : list (N * address * string * euint32) :=
  match e with
  | GroupCreated g who label key => [(g, who, label, key)]
  | _ => []
  end.

(** The reasons the contract gives in its [require] statements. *)
Definition require_reasons : list string :=
  ["Group name required"; "Invalid group"; "Already joined"; "Join first";
   "Message required"; "Invalid message index"]%string.

End Contract.

End AnonVerse.

(** * The message cipher (utils/crypto.ts) *)

Module Crypto.

Local Open Scope Z_scope.

(** A JavaScript string is a sequence of UTF-16 code units; a
    [Uint8Array] is a sequence of numbers below 256. *)
Abbreviation jsstring := (list Z).
Abbreviation bytes := (list Z).

(** ** [TextEncoder] and [TextDecoder]

    The two platform objects the module instantiates with their
    defaults, after the Encoding Standard: UTF-8, replacement of
    malformed input by U+FFFD, and a decoder that drops a leading byte
    order mark. *)

Definition is_high_surrogate (u : Z) : bool := (0xD800 <=? u) && (u <=? 0xDBFF).
Definition is_low_surrogate (u : Z) : bool := (0xDC00 <=? u) && (u <=? 0xDFFF).

(** Code units to scalar values: a surrogate pair is one scalar value,
    an unpaired surrogate becomes U+FFFD. *)
Fixpoint to_scalars (s : jsstring) : list Z :=
  match s with
  | [] => []
  | u :: rest =>
      if is_high_surrogate u then
        match rest with
        | v :: rest' =>
            if is_low_surrogate v
            then (0x10000 + Z.shiftl (u - 0xD800) 10 + (v - 0xDC00)) :: to_scalars rest'
            else 0xFFFD :: to_scalars rest
        | [] => [0xFFFD]
        end
      else if is_low_surrogate u then 0xFFFD :: to_scalars rest
      else u :: to_scalars rest
  end.

(** Scalar values to code units. *)
Definition from_scalar (cp : Z) : jsstring :=
  if cp <=? 0xFFFF then [cp]
  else [0xD800 + Z.shiftr (cp - 0x10000) 10; 0xDC00 + Z.land (cp - 0x10000) 0x3FF].

Definition from_scalars (cps : list Z) : jsstring := flat_map from_scalar cps.

(** The UTF-8 encoder: one to four bytes per scalar value. *)
Definition utf8_encode_scalar (cp : Z) : bytes :=
  if cp <=? 0x7F then [cp]
  else if cp <=? 0x7FF then
    [Z.shiftr cp 6 + 0xC0;
     Z.lor 0x80 (Z.land cp 0x3F)]
  else if cp <=? 0xFFFF then
    [Z.shiftr cp 12 + 0xE0;
     Z.lor 0x80 (Z.land (Z.shiftr cp 6) 0x3F);
     Z.lor 0x80 (Z.land cp 0x3F)]
  else
    [Z.shiftr cp 18 + 0xF0;
     Z.lor 0x80 (Z.land (Z.shiftr cp 12) 0x3F);
     Z.lor 0x80 (Z.land (Z.shiftr cp 6) 0x3F);
     Z.lor 0x80 (Z.land cp 0x3F)].

Definition TextEncoder_encode (s : jsstring) : bytes :=
  flat_map utf8_encode_scalar (to_scalars s).

(** The UTF-8 decoder's registers: the code point being assembled, the
    continuation bytes it needs and has seen, and the bounds on the
    next byte. *)
Record Utf8State : Type := mkUtf8 {
  code_point : Z;
  bytes_needed : Z;
  bytes_seen : Z;
  lower_boundary : Z;
  upper_boundary : Z
}.

Definition utf8_start : Utf8State := mkUtf8 0 0 0 0x80 0xBF.

Inductive Utf8Step : Type :=
| Continue (st : Utf8State)
| Emit (cp : Z)
| Error.

(** The decoder on a byte when no sequence is open. *)
Definition utf8_lead (b : Z) : Utf8Step :=
  if (0x00 <=? b) && (b <=? 0x7F) then Emit b
  else if (0xC2 <=? b) && (b <=? 0xDF) then
    Continue (mkUtf8 (Z.land b 0x1F) 1 0 0x80 0xBF)
  else if (0xE0 <=? b) && (b <=? 0xEF) then
    Continue (mkUtf8 (Z.land b 0xF) 2 0
                (if b =? 0xE0 then 0xA0 else 0x80)
                (if b =? 0xED then 0x9F else 0xBF))
  else if (0xF0 <=? b) && (b <=? 0xF4) then
    Continue (mkUtf8 (Z.land b 0x7) 3 0
                (if b =? 0xF0 then 0x90 else 0x80)
                (if b =? 0xF4 then 0x8F else 0xBF))
  else Error.

(** The decoder on a byte inside a sequence; [None] when the byte is
    out of bounds and has to be read again as a lead byte. *)
Definition utf8_continuation (st : Utf8State) (b : Z) : option Utf8Step :=
  if (lower_boundary st <=? b) && (b <=? upper_boundary st) then
    let cp := Z.lor (Z.shiftl (code_point st) 6) (Z.land b 0x3F) in
    if bytes_seen st + 1 =? bytes_needed st
    then Some (Emit cp)
    else Some (Continue (mkUtf8 cp (bytes_needed st) (bytes_seen st + 1) 0x80 0xBF))
  else None.

Fixpoint utf8_decode (st : Utf8State) (bs : bytes) : list Z :=
  match bs with
  | [] => if bytes_needed st =? 0 then [] else [0xFFFD]
  | b :: rest =>
      let lead :=
        match utf8_lead b with
        | Continue st' => utf8_decode st' rest
        | Emit cp => cp :: utf8_decode utf8_start rest
        | Error => 0xFFFD :: utf8_decode utf8_start rest
        end in
      if bytes_needed st =? 0 then lead
      else
        match utf8_continuation st b with
        | Some (Continue st') => utf8_decode st' rest
        | Some (Emit cp) => cp :: utf8_decode utf8_start rest
        | Some Error => 0xFFFD :: utf8_decode utf8_start rest
        | None => 0xFFFD :: lead
        end
  end.

(** With [ignoreBOM] unset, the first scalar value is dropped when it
    is U+FEFF. *)
Definition strip_bom (cps : list Z) : list Z :=
  match cps with
  | cp :: rest => if cp =? 0xFEFF then rest else cps
  | [] => []
  end.

Definition TextDecoder_decode (bs : bytes) : jsstring :=
  from_scalars (strip_bom (utf8_decode utf8_start bs)).

(** ** Numbers and strings *)

(** [ToUint8], the conversion applied to a number stored in a
    [Uint8Array]. *)
Definition to_uint8 (n : Z) : Z := n mod 256.

(** [a ^ b] on integers within the 32-bit range; a [NaN] or
    [undefined] operand counts as 0. *)
Definition xor_number (a : option Z) (b : option Z) : Z :=
  Z.lxor (default 0 a) (default 0 b).

Definition hex_digit (d : Z) : Z := if d <? 10 then 48 + d else 87 + d.

(** [val.toString(16)] for a byte. *)
Definition toString16 (val : Z) : jsstring :=
  if val <? 16 then [hex_digit val] else [hex_digit (val / 16); hex_digit (val mod 16)].

(** [s.padStart(2, '0')]. *)
Definition padStart2 (s : jsstring) : jsstring :=
  match s with
  | [] => [48; 48]
  | [c] => [48; c]
  | _ => s
  end.

Definition is_line_terminator (u : Z) : bool :=
  (u =? 0x0A) || (u =? 0x0D) || (u =? 0x2028) || (u =? 0x2029).

(** [s.match(/.{1,2}/g)]: successive runs of one or two code units
    that are not line terminators. *)
Fixpoint match_pairs (s : jsstring) : list jsstring :=
  match s with
  | [] => []
  | a :: rest =>
      if is_line_terminator a then match_pairs rest
      else
        match rest with
        | b :: rest' =>
            if is_line_terminator b then [a] :: match_pairs rest
            else [a; b] :: match_pairs rest'
        | [] => [[a]]
        end
  end.

Definition is_white_space (u : Z) : bool :=
  (u =? 0x09) || (u =? 0x0B) || (u =? 0x0C) || (u =? 0x20) || (u =? 0xA0)
  || (u =? 0x1680) || ((0x2000 <=? u) && (u <=? 0x200A)) || (u =? 0x202F)
  || (u =? 0x205F) || (u =? 0x3000) || (u =? 0xFEFF) || is_line_terminator u.

Fixpoint trim_start (s : jsstring) : jsstring :=
  match s with
  | u :: rest => if is_white_space u then trim_start rest else s
  | [] => []
  end.

Definition hex_digit_value (u : Z) : option Z :=
  if (48 <=? u) && (u <=? 57) then Some (u - 48)
  else if (97 <=? u) && (u <=? 102) then Some (u - 87)
  else if (65 <=? u) && (u <=? 70) then Some (u - 55)
  else None.

(** The value of the longest prefix of hexadecimal digits; [None] when
    that prefix is empty. *)
Fixpoint hex_prefix_value (acc : option Z) (s : jsstring) : option Z :=
  match s with
  | [] => acc
  | u :: rest =>
      match hex_digit_value u with
      | Some d => hex_prefix_value (Some (16 * default 0 acc + d)) rest
      | None => acc
      end
  end.

(** [parseInt(s, 16)]; [None] is [NaN]. *)
Definition parseInt16 (s : jsstring) : option Z :=
  let s1 := trim_start s in
  let sign := match s1 with u :: _ => if u =? 45 then -1 else 1 | [] => 1 end in
  let s2 := match s1 with
            | u :: rest => if (u =? 45) || (u =? 43) then rest else s1
            | [] => []
            end in
  let s3 := match s2 with
            | a :: b :: rest => if (a =? 48) && ((b =? 120) || (b =? 88)) then rest else s2
            | _ => s2
            end in
  Z.mul sign <$> hex_prefix_value None s3.

(** ** The module's functions *)

(** A four-byte buffer written with [setUint32(0, key)]: the key
    modulo 2^32, most significant byte first. *)
Definition keyBytes (key : Z) : bytes :=
  let k := key mod 2 ^ 32 in
  [Z.land (Z.shiftr k 24) 0xFF; Z.land (Z.shiftr k 16) 0xFF;
   Z.land (Z.shiftr k 8) 0xFF; Z.land k 0xFF].

Definition encodeMessage (message : jsstring) (key : Z) : jsstring :=
  let msgBytes := TextEncoder_encode message in
  let bytesKey := keyBytes key in
  let encrypted :=
    imap (fun idx byte =>
            to_uint8 (xor_number (Some byte) (bytesKey !! (idx mod length bytesKey)%nat)))
         msgBytes in
  concat (map (fun val => padStart2 (toString16 val)) encrypted).

Definition decodeMessage (cipherHex : jsstring) (key : Z) : jsstring :=
  match cipherHex with
  | [] => []
  | _ =>
      let bytes := map parseInt16 (match_pairs cipherHex) in
      let bytesKey := keyBytes key in
      let decrypted :=
        imap (fun idx byte => xor_number byte (bytesKey !! (idx mod length bytesKey)%nat))
             bytes in
      TextDecoder_decode (map to_uint8 decrypted)
  end.

(** The Unicode scalar values: the code points that are not
    surrogates. *)
Definition scalar_value (cp : Z) : Prop :=
  0 <= cp < 0xD800 \/ 0xE000 <= cp < 0x110000.

(** The strings on which the text codec loses nothing: code units in
    range, every surrogate paired. *)
Fixpoint well_formed (s : jsstring) : bool :=
  match s with
  | [] => true
  | u :: rest =>
      (0 <=? u) && (u <? 65536) &&
      (if is_high_surrogate u then
         match rest with
         | v :: rest' => is_low_surrogate v && well_formed rest'
         | [] => false
         end
       else negb (is_low_surrogate u) && well_formed rest)
  end.

(** The values a JavaScript string can hold: 16-bit code units. *)
Definition code_units (s : jsstring) : Prop := Forall (fun u => 0 <= u < 65536) s.

Definition is_lower_hex (u : Z) : bool :=
  ((48 <=? u) && (u <=? 57)) || ((97 <=? u) && (u <=? 102)).

End Crypto.

(** * The helper of the contract's test (test/AnonVerse.ts) *)

Module TestHelpers.

Import Crypto.

Local Open Scope Z_scope.

(** [buffer.toString("hex")]: two lowercase hexadecimal digits per
    byte. *)
Definition Buffer_toString_hex (bs : bytes) : jsstring :=
  flat_map (fun b => [hex_digit (b / 16); hex_digit (b mod 16)]) bs.

(** The test's key buffer is the cipher module's: four bytes written
    with [setUint32(0, key)]. *)
Definition xorEncrypt (message : jsstring) (key : Z) : jsstring :=
  let bytes := TextEncoder_encode message in
  let keyBytes := keyBytes key in
  let encrypted :=
    imap (fun idx byte =>
            to_uint8 (xor_number (Some byte) (keyBytes !! (idx mod length keyBytes)%nat)))
         bytes in
  Buffer_toString_hex encrypted.

End TestHelpers.

(** * A small execution and a small message, for the examples *)

Module Scenario.

Import AnonVerse.

(** Identity 7 creates "Alpha", identity 8 joins it and posts "abcd";
    identity 9 stays outside.  The ledger's own identity is 99. *)
Definition alice : Env := mkEnv 7 100 123456789012.
Definition bob : Env := mkEnv 8 101 5.
Definition carol : Env := mkEnv 9 102 6.

Definition demo : list (Env * Call) :=
  [(alice, CreateGroup "Alpha"); (bob, JoinGroup 0); (bob, PostMessage 0 "abcd")].

(** Two groups: identity 7 creates "Alpha", identity 8 creates "Beta",
    identity 9 joins "Beta" and posts there. *)
Definition two_rooms : list (Env * Call) :=
  [(alice, CreateGroup "Alpha"); (bob, CreateGroup "Beta"); (carol, JoinGroup 1);
   (carol, PostMessage 1 "wxyz")].

(** "hi ", then U+00E9, U+20AC and U+1F600 (a surrogate pair). *)
Definition smile : Crypto.jsstring :=
  [104; 105; 32; 0xE9; 0x20AC; 0xD83D; 0xDE00]%Z.

End Scenario.

(** * The ledger: lemmas *)

Module LedgerFacts.

Import AnonVerse.

(** Unfolds the reads and the monad down to matches on the ledger. *)
Ltac tx_unfold :=
  unfold getGroup, getGroupCount, getGroupSecret, listMembers, isMember,
    getMessageCount, getMessage, validGroup, FHE_allowThis, FHE_allow, FHE_rem, FHE_randEuint32,
    emit, group_at, checked_add, bind, ret, require, panic, gets, asks, modify.

Section Facts.

Variable this : address.

(** *** The group-existence guard *)

Lemma group_lookup_lt (l : Ledger) (groupId : N) :
  groupId < group_count l <-> is_Some (groups l !! N.to_nat groupId).
Proof.
  unfold group_count. rewrite lookup_lt_is_Some. lia.
Qed.

Lemma group_lookup_ge (l : Ledger) (groupId : N) :
  group_count l <= groupId <-> groups l !! N.to_nat groupId = None.
Proof.
  unfold group_count. rewrite lookup_ge_None. lia.
Qed.

Lemma validGroup_pass groupId env l :
  groupId < group_count l -> validGroup groupId env l = Ok tt l.
Proof.
  intros H. tx_unfold. apply N.ltb_lt in H. now rewrite H.
Qed.

Lemma validGroup_reject groupId env l :
  group_count l <= groupId -> validGroup groupId env l = Fail (Revert "Invalid group").
Proof.
  intros H. tx_unfold. apply N.ltb_ge in H. now rewrite H.
Qed.

Lemma nonempty_length (s : string) : s <> ""%string -> (0 <? String.length s)%nat = true.
Proof. destruct s; [congruence | reflexivity]. Qed.

(** *** Closed forms of the writes *)

Lemma createGroup_commits name env l :
  name <> ""%string ->
  createGroup this name env l
  = Ok (group_count l, nextHandle (fhe l) + 1) (createGroup_post this name env l).
Proof.
  intros Hname. unfold createGroup. tx_unfold.
  rewrite (nonempty_length _ Hname). cbn.
  rewrite lookup_insert_eq. reflexivity.
Qed.

Lemma createGroup_rejects env l :
  createGroup this "" env l = Fail (Revert "Group name required").
Proof. reflexivity. Qed.

Lemma joinGroup_commits groupId g env l :
  groups l !! N.to_nat groupId = Some g ->
  member_flag l groupId (msg_sender env) = false ->
  memberCount g < MAX_UINT256 ->
  joinGroup groupId env l = Ok tt (joinGroup_post groupId g env l).
Proof.
  intros Hg Hflag Hmax. unfold joinGroup.
  assert (Hlt : groupId < group_count l) by (apply group_lookup_lt; eauto).
  unfold bind at 1. rewrite (validGroup_pass _ _ _ Hlt).
  tx_unfold. cbn. rewrite Hflag. cbn. rewrite Hg.
  assert (Hle : (memberCount g + 1 <=? MAX_UINT256) = true) by (apply N.leb_le; lia).
  rewrite Hle. cbn.
  rewrite list_lookup_insert_eq by (apply lookup_lt_Some in Hg; exact Hg).
  reflexivity.
Qed.

Lemma postMessage_commits groupId body g env l :
  groups l !! N.to_nat groupId = Some g ->
  member_flag l groupId (msg_sender env) = true ->
  body <> ""%string ->
  messageCount g < MAX_UINT256 ->
  postMessage groupId body env l = Ok tt (postMessage_post groupId body g env l).
Proof.
  intros Hg Hflag Hbody Hmax. unfold postMessage.
  assert (Hlt : groupId < group_count l) by (apply group_lookup_lt; eauto).
  unfold bind at 1. rewrite (validGroup_pass _ _ _ Hlt).
  rewrite (nonempty_length _ Hbody).
  tx_unfold. cbn. rewrite Hflag. cbn. rewrite Hg.
  assert (Hle : (messageCount g + 1 <=? MAX_UINT256) = true) by (apply N.leb_le; lia).
  rewrite Hle. reflexivity.
Qed.

(** Every outcome of a write is one of the listed ones. *)

Lemma joinGroup_cases groupId env l :
  (group_count l <= groupId /\ joinGroup groupId env l = Fail (Revert "Invalid group"))
  \/ (groupId < group_count l /\ member_flag l groupId (msg_sender env) = true
      /\ joinGroup groupId env l = Fail (Revert "Already joined"))
  \/ (exists g, groups l !! N.to_nat groupId = Some g
      /\ member_flag l groupId (msg_sender env) = false
      /\ ((memberCount g < MAX_UINT256
           /\ joinGroup groupId env l = Ok tt (joinGroup_post groupId g env l))
          \/ (MAX_UINT256 <= memberCount g /\ joinGroup groupId env l = Fail (Panic 17)))).
Proof.
  destruct (N.lt_ge_cases groupId (group_count l)) as [Hlt | Hge].
  - right. destruct (proj1 (group_lookup_lt l groupId) Hlt) as [g Hg].
    destruct (member_flag l groupId (msg_sender env)) eqn:Hflag.
    + left. split; [exact Hlt | split; [reflexivity |]].
      unfold joinGroup. unfold bind at 1. rewrite (validGroup_pass _ _ _ Hlt).
      tx_unfold. cbn. now rewrite Hflag.
    + right. exists g. split; [exact Hg | split; [reflexivity |]].
      destruct (N.lt_ge_cases (memberCount g) MAX_UINT256) as [Hm | Hm].
      * left. split; [exact Hm |]. now apply joinGroup_commits.
      * right. split; [exact Hm |].
        unfold joinGroup. unfold bind at 1. rewrite (validGroup_pass _ _ _ Hlt).
        tx_unfold. cbn. rewrite Hflag. cbn. rewrite Hg.
        assert (Hle : (memberCount g + 1 <=? MAX_UINT256) = false) by (apply N.leb_gt; lia).
        now rewrite Hle.
  - left. split; [exact Hge |].
    unfold joinGroup. unfold bind at 1. now rewrite (validGroup_reject _ _ _ Hge).
Qed.

Lemma postMessage_cases groupId body env l :
  (group_count l <= groupId /\ postMessage groupId body env l = Fail (Revert "Invalid group"))
  \/ (groupId < group_count l /\ member_flag l groupId (msg_sender env) = false
      /\ postMessage groupId body env l = Fail (Revert "Join first"))
  \/ (groupId < group_count l /\ member_flag l groupId (msg_sender env) = true
      /\ body = ""%string
      /\ postMessage groupId body env l = Fail (Revert "Message required"))
  \/ (exists g, groups l !! N.to_nat groupId = Some g
      /\ member_flag l groupId (msg_sender env) = true
      /\ body <> ""%string
      /\ ((messageCount g < MAX_UINT256
           /\ postMessage groupId body env l = Ok tt (postMessage_post groupId body g env l))
          \/ (MAX_UINT256 <= messageCount g /\ postMessage groupId body env l = Fail (Panic 17)))).
Proof.
  destruct (N.lt_ge_cases groupId (group_count l)) as [Hlt | Hge].
  - right. destruct (proj1 (group_lookup_lt l groupId) Hlt) as [g Hg].
    destruct (member_flag l groupId (msg_sender env)) eqn:Hflag.
    + right. destruct (decide (body = ""%string)) as [-> | Hbody].
      * left. split; [exact Hlt | split; [reflexivity | split; [reflexivity |]]].
        unfold postMessage. unfold bind at 1. rewrite (validGroup_pass _ _ _ Hlt).
        tx_unfold. cbn. now rewrite Hflag.
      * right. exists g. split; [exact Hg | split; [reflexivity | split; [exact Hbody |]]].
        destruct (N.lt_ge_cases (messageCount g) MAX_UINT256) as [Hm | Hm].
        -- left. split; [exact Hm |]. now apply postMessage_commits.
        -- right. split; [exact Hm |].
           unfold postMessage. unfold bind at 1. rewrite (validGroup_pass _ _ _ Hlt).
           rewrite (nonempty_length _ Hbody).
           tx_unfold. cbn. rewrite Hflag. cbn. rewrite Hg.
           assert (Hle : (messageCount g + 1 <=? MAX_UINT256) = false) by (apply N.leb_gt; lia).
           now rewrite Hle.
    + left. split; [exact Hlt | split; [reflexivity |]].
      unfold postMessage. unfold bind at 1. rewrite (validGroup_pass _ _ _ Hlt).
      tx_unfold. cbn. now rewrite Hflag.
  - left. split; [exact Hge |].
    unfold postMessage. unfold bind at 1. now rewrite (validGroup_reject _ _ _ Hge).
Qed.

Lemma createGroup_cases name env l :
  (name = ""%string /\ createGroup this name env l = Fail (Revert "Group name required"))
  \/ (name <> ""%string
      /\ createGroup this name env l
         = Ok (group_count l, nextHandle (fhe l) + 1) (createGroup_post this name env l)).
Proof.
  destruct (decide (name = ""%string)) as [-> | Hname].
  - left. split; reflexivity.
  - right. split; [exact Hname |]. now apply createGroup_commits.
Qed.

(** *** Reading the committed ledgers *)

Lemma member_flag_insert l groupId0 who groupId account f :
  groupMembers l = <[(groupId0, who) := true]> f ->
  member_flag l groupId account
  = if decide (groupId = groupId0 /\ account = who) then true
    else default false (f !! (groupId, account)).
Proof.
  intros E. unfold member_flag. rewrite E. case_decide as H.
  - destruct H as [-> ->]. now rewrite lookup_insert_eq.
  - rewrite lookup_insert_ne; [reflexivity |]. intros [= -> ->]. now apply H.
Qed.

Lemma member_list_insert l groupId0 ms groupId f :
  memberLists l = <[groupId0 := ms]> f ->
  member_list l groupId
  = if decide (groupId = groupId0) then ms else default [] (f !! groupId).
Proof.
  intros E. unfold member_list. rewrite E. case_decide as H.
  - subst. now rewrite lookup_insert_eq.
  - now rewrite lookup_insert_ne.
Qed.

Lemma message_list_insert l groupId0 ms groupId f :
  groupMessages l = <[groupId0 := ms]> f ->
  message_list l groupId
  = if decide (groupId = groupId0) then ms else default [] (f !! groupId).
Proof.
  intros E. unfold message_list. rewrite E. case_decide as H.
  - subst. now rewrite lookup_insert_eq.
  - now rewrite lookup_insert_ne.
Qed.

Lemma group_insert_lookup (gs : list GroupMetadata) groupId0 g0 g' groupId :
  gs !! N.to_nat groupId0 = Some g0 ->
  <[N.to_nat groupId0 := g']> gs !! N.to_nat groupId
  = if decide (groupId = groupId0) then Some g' else gs !! N.to_nat groupId.
Proof.
  intros H0. case_decide as H.
  - subst. apply list_lookup_insert_eq. now apply lookup_lt_Some in H0.
  - apply list_lookup_insert_ne. intros E. apply H. symmetry. now apply N2Nat.inj.
Qed.

Lemma group_push_lookup (gs : list GroupMetadata) g' groupId :
  (gs ++ [g']) !! N.to_nat groupId
  = if decide (groupId = N.of_nat (length gs)) then Some g' else gs !! N.to_nat groupId.
Proof.
  case_decide as H.
  - subst. rewrite Nat2N.id. rewrite lookup_app_r by lia. now rewrite Nat.sub_diag.
  - destruct (decide (N.to_nat groupId < length gs)%nat) as [Hlt | Hge].
    + now rewrite lookup_app_l.
    + rewrite (proj2 (lookup_ge_None gs _)) by lia.
      apply lookup_ge_None. rewrite length_app. cbn. lia.
Qed.

End Facts.
End LedgerFacts.

Module LedgerInv.
Import AnonVerse LedgerFacts.
Section Inv.
Variable this : address.

Lemma createGroup_post_flag name env l groupId account :
  member_flag (createGroup_post this name env l) groupId account
  = if decide (groupId = group_count l /\ account = msg_sender env) then true
    else member_flag l groupId account.
Proof. now apply member_flag_insert. Qed.

Lemma createGroup_post_members name env l groupId :
  member_list (createGroup_post this name env l) groupId
  = if decide (groupId = group_count l) then member_list l groupId ++ [msg_sender env]
    else member_list l groupId.
Proof.
  rewrite (member_list_insert (createGroup_post this name env l) (group_count l)
             (member_list l (group_count l) ++ [msg_sender env]) groupId (memberLists l) eq_refl).
  case_decide; subst; reflexivity.
Qed.

Lemma createGroup_post_group name env l groupId :
  groups (createGroup_post this name env l) !! N.to_nat groupId
  = if decide (groupId = group_count l)
    then Some (mkGroup name (msg_sender env) (nextHandle (fhe l) + 1) (block_timestamp env) 1 0)
    else groups l !! N.to_nat groupId.
Proof. apply group_push_lookup. Qed.

Lemma createGroup_post_count name env l :
  group_count (createGroup_post this name env l) = group_count l + 1.
Proof. unfold group_count. cbn. rewrite length_app. cbn. lia. Qed.

Lemma createGroup_preserves name env l :
  consistent this l -> consistent this (createGroup_post this name env l).
Proof.
  intros C. split.
  - intros groupId g. rewrite createGroup_post_group, createGroup_post_members.
    case_decide as E.
    + intros [= <-]. subst. rewrite (unborn_members _ _ C) by lia. reflexivity.
    + apply C.
  - intros groupId g. rewrite createGroup_post_group.
    change (message_list (createGroup_post this name env l) groupId) with (message_list l groupId).
    case_decide as E.
    + intros [= <-]. subst. rewrite (unborn_messages _ _ C) by lia. reflexivity.
    + apply C.
  - intros groupId. rewrite createGroup_post_members. case_decide as E.
    + subst. rewrite (unborn_members _ _ C) by lia. apply NoDup_singleton.
    + apply C.
  - intros groupId account. rewrite createGroup_post_flag, createGroup_post_members.
    pose proof (members_flagged _ _ C groupId account) as F.
    destruct (decide (groupId = group_count l)) as [-> | E].
    + rewrite (unborn_members _ _ C) in * by lia. cbn.
      case_decide as E'.
      * destruct E' as [_ ->]. split; [intros _; apply list_elem_of_singleton; reflexivity | reflexivity].
      * rewrite F. rewrite list_elem_of_singleton. split; [intros H; inversion H | intros ->; tauto].
    + case_decide as E'; [tauto | exact F].
  - intros groupId g. rewrite createGroup_post_group, createGroup_post_members.
    case_decide as E.
    + intros [= <-]. subst. rewrite (unborn_members _ _ C) by lia. reflexivity.
    + apply C.
  - intros groupId. rewrite createGroup_post_count, createGroup_post_members. intros H.
    case_decide; [lia |]. apply C. lia.
  - intros groupId. rewrite createGroup_post_count. intros H.
    change (message_list (createGroup_post this name env l) groupId) with (message_list l groupId).
    apply C. lia.
  - intros groupId g account. rewrite createGroup_post_group, createGroup_post_flag.
    cbn [createGroup_post fhe acl].
    case_decide as E.
    + intros [= <-]. cbn. subst. case_decide as E'.
      * destruct E' as [_ ->]. set_solver.
      * rewrite (members_flagged _ _ C). rewrite (unborn_members _ _ C) by lia.
        intros H. inversion H.
    + intros Hg. case_decide as E'; [tauto |]. intros Hf.
      pose proof (members_allowed _ _ C _ _ _ Hg Hf). set_solver.
  - intros groupId g. rewrite createGroup_post_group. cbn [createGroup_post fhe acl].
    case_decide as E.
    + intros [= <-]. cbn. set_solver.
    + intros Hg. pose proof (ledger_allowed _ _ C _ _ Hg). set_solver.
  - intros groupId g. rewrite createGroup_post_group.
    cbn [createGroup_post fhe nextHandle plaintexts].
    case_decide as E.
    + intros [= <-]. cbn. split; [lia |].
      eexists. split; [apply lookup_insert_eq |]. apply N.mod_lt. lia.
    + intros Hg. destruct (secrets_minted _ _ C _ _ Hg) as [Hlt (v & Hv & Hb)].
      split; [lia |]. exists v. split; [| exact Hb].
      rewrite !lookup_insert_ne by lia. exact Hv.
Qed.

Lemma joinGroup_post_flag groupId0 g0 env l groupId account :
  member_flag (joinGroup_post groupId0 g0 env l) groupId account
  = if decide (groupId = groupId0 /\ account = msg_sender env) then true
    else member_flag l groupId account.
Proof. now apply member_flag_insert. Qed.

Lemma joinGroup_post_members groupId0 g0 env l groupId :
  member_list (joinGroup_post groupId0 g0 env l) groupId
  = if decide (groupId = groupId0) then member_list l groupId ++ [msg_sender env]
    else member_list l groupId.
Proof.
  rewrite (member_list_insert (joinGroup_post groupId0 g0 env l) groupId0
             (member_list l groupId0 ++ [msg_sender env]) groupId (memberLists l) eq_refl).
  case_decide; subst; reflexivity.
Qed.

Lemma joinGroup_post_group groupId0 g0 env l groupId :
  groups l !! N.to_nat groupId0 = Some g0 ->
  groups (joinGroup_post groupId0 g0 env l) !! N.to_nat groupId
  = if decide (groupId = groupId0)
    then Some (mkGroup (name g0) (creator g0) (secret g0) (createdAt g0)
                 (memberCount g0 + 1) (messageCount g0))
    else groups l !! N.to_nat groupId.
Proof. intros H0. now apply group_insert_lookup with (g0 := g0). Qed.

Lemma joinGroup_post_count groupId0 g0 env l :
  group_count (joinGroup_post groupId0 g0 env l) = group_count l.
Proof. unfold group_count. cbn. now rewrite length_insert. Qed.

Lemma joinGroup_preserves groupId0 g0 env l :
  groups l !! N.to_nat groupId0 = Some g0 ->
  member_flag l groupId0 (msg_sender env) = false ->
  consistent this l -> consistent this (joinGroup_post groupId0 g0 env l).
Proof.
  intros H0 Hflag C.
  assert (Hlt : groupId0 < group_count l) by (apply group_lookup_lt; eauto).
  assert (Hout : msg_sender env ∉ member_list l groupId0).
  { rewrite <- (members_flagged _ _ C). now rewrite Hflag. }
  split.
  - intros groupId g. rewrite (joinGroup_post_group _ _ _ _ _ H0), joinGroup_post_members.
    case_decide as E.
    + intros [= <-]. subst. cbn. rewrite (members_counted _ _ C _ _ H0), length_app. cbn. lia.
    + apply C.
  - intros groupId g. rewrite (joinGroup_post_group _ _ _ _ _ H0).
    change (message_list (joinGroup_post groupId0 g0 env l) groupId) with (message_list l groupId).
    case_decide as E.
    + intros [= <-]. subst. cbn. now apply C.
    + apply C.
  - intros groupId. rewrite joinGroup_post_members. case_decide as E.
    + subst. apply NoDup_app. split; [apply C | split; [| apply NoDup_singleton]].
      intros x Hx Hx'. apply list_elem_of_singleton in Hx'. now subst.
    + apply C.
  - intros groupId account. rewrite joinGroup_post_flag, joinGroup_post_members.
    pose proof (members_flagged _ _ C groupId account) as F.
    destruct (decide (groupId = groupId0)) as [-> | E].
    + rewrite elem_of_app, list_elem_of_singleton. case_decide as E'.
      * destruct E' as [_ ->]. tauto.
      * rewrite F. split; [tauto | intros [H | ->]; tauto].
    + case_decide as E'; [tauto | exact F].
  - intros groupId g. rewrite (joinGroup_post_group _ _ _ _ _ H0), joinGroup_post_members.
    case_decide as E.
    + intros [= <-]. subst. cbn. pose proof (creator_first _ _ C _ _ H0) as Hh.
      destruct (member_list l groupId0); [discriminate | exact Hh].
    + apply C.
  - intros groupId. rewrite joinGroup_post_count, joinGroup_post_members. intros H.
    case_decide; [lia |]. now apply C.
  - intros groupId. rewrite joinGroup_post_count. intros H.
    change (message_list (joinGroup_post groupId0 g0 env l) groupId) with (message_list l groupId).
    now apply C.
  - intros groupId g account. rewrite (joinGroup_post_group _ _ _ _ _ H0), joinGroup_post_flag.
    cbn [joinGroup_post fhe acl].
    case_decide as E.
    + intros [= <-]. cbn. subst. case_decide as E'.
      * destruct E' as [_ ->]. set_solver.
      * intros Hf. pose proof (members_allowed _ _ C _ _ _ H0 Hf). set_solver.
    + intros Hg. case_decide as E'; [tauto |]. intros Hf.
      pose proof (members_allowed _ _ C _ _ _ Hg Hf). set_solver.
  - intros groupId g. rewrite (joinGroup_post_group _ _ _ _ _ H0). cbn [joinGroup_post fhe acl].
    case_decide as E.
    + intros [= <-]. cbn. pose proof (ledger_allowed _ _ C _ _ H0). set_solver.
    + intros Hg. pose proof (ledger_allowed _ _ C _ _ Hg). set_solver.
  - intros groupId g. rewrite (joinGroup_post_group _ _ _ _ _ H0).
    cbn [joinGroup_post fhe nextHandle plaintexts].
    case_decide as E.
    + intros [= <-]. cbn. now apply (secrets_minted _ _ C _ _ H0).
    + apply C.
Qed.

Lemma postMessage_post_messages groupId0 body g0 env l groupId :
  message_list (postMessage_post groupId0 body g0 env l) groupId
  = if decide (groupId = groupId0)
    then message_list l groupId ++ [mkMessage (msg_sender env) body (block_timestamp env)]
    else message_list l groupId.
Proof.
  rewrite (message_list_insert (postMessage_post groupId0 body g0 env l) groupId0
             (message_list l groupId0 ++ [mkMessage (msg_sender env) body (block_timestamp env)])
             groupId (groupMessages l) eq_refl).
  case_decide; subst; reflexivity.
Qed.

Lemma postMessage_post_group groupId0 body g0 env l groupId :
  groups l !! N.to_nat groupId0 = Some g0 ->
  groups (postMessage_post groupId0 body g0 env l) !! N.to_nat groupId
  = if decide (groupId = groupId0)
    then Some (mkGroup (name g0) (creator g0) (secret g0) (createdAt g0)
                 (memberCount g0) (messageCount g0 + 1))
    else groups l !! N.to_nat groupId.
Proof. intros H0. now apply group_insert_lookup with (g0 := g0). Qed.

Lemma postMessage_post_count groupId0 body g0 env l :
  group_count (postMessage_post groupId0 body g0 env l) = group_count l.
Proof. unfold group_count. cbn. now rewrite length_insert. Qed.

Lemma postMessage_preserves groupId0 body g0 env l :
  groups l !! N.to_nat groupId0 = Some g0 ->
  consistent this l -> consistent this (postMessage_post groupId0 body g0 env l).
Proof.
  intros H0 C.
  assert (Hlt : groupId0 < group_count l) by (apply group_lookup_lt; eauto).
  split.
  - intros groupId g. rewrite (postMessage_post_group _ _ _ _ _ _ H0).
    change (member_list (postMessage_post groupId0 body g0 env l) groupId)
      with (member_list l groupId).
    case_decide as E.
    + intros [= <-]. subst. cbn. now apply C.
    + apply C.
  - intros groupId g. rewrite (postMessage_post_group _ _ _ _ _ _ H0), postMessage_post_messages.
    case_decide as E.
    + intros [= <-]. subst. cbn. rewrite (messages_counted _ _ C _ _ H0), length_app. cbn. lia.
    + apply C.
  - intros groupId. apply (members_distinct _ _ C groupId).
  - intros groupId account. apply (members_flagged _ _ C groupId account).
  - intros groupId g. rewrite (postMessage_post_group _ _ _ _ _ _ H0).
    change (member_list (postMessage_post groupId0 body g0 env l) groupId)
      with (member_list l groupId).
    case_decide as E.
    + intros [= <-]. subst. cbn. now apply C.
    + apply C.
  - intros groupId. rewrite postMessage_post_count. apply (unborn_members _ _ C groupId).
  - intros groupId. rewrite postMessage_post_count, postMessage_post_messages. intros H.
    case_decide; [lia |]. now apply C.
  - intros groupId g account. rewrite (postMessage_post_group _ _ _ _ _ _ H0).
    change (member_flag (postMessage_post groupId0 body g0 env l) groupId account)
      with (member_flag l groupId account).
    cbn [postMessage_post fhe].
    case_decide as E.
    + intros [= <-]. cbn. subst. now apply C.
    + apply C.
  - intros groupId g. rewrite (postMessage_post_group _ _ _ _ _ _ H0). cbn [postMessage_post fhe].
    case_decide as E.
    + intros [= <-]. cbn. now apply (ledger_allowed _ _ C _ _ H0).
    + apply C.
  - intros groupId g. rewrite (postMessage_post_group _ _ _ _ _ _ H0). cbn [postMessage_post fhe].
    case_decide as E.
    + intros [= <-]. cbn. now apply (secrets_minted _ _ C _ _ H0).
    + apply C.
Qed.

Lemma initial_consistent : consistent this initial.
Proof.
  split; try (intros groupId g H; cbn in H; rewrite lookup_nil in H; discriminate);
    try (intros groupId g account H; cbn in H; rewrite lookup_nil in H; discriminate).
  - intros groupId. apply NoDup_nil_2.
  - intros groupId account. unfold member_flag, member_list. cbn.
    rewrite !lookup_empty. cbn. split; [discriminate | intros H; inversion H].
  - intros groupId _. unfold member_list. cbn. now rewrite lookup_empty.
  - intros groupId _. unfold message_list. cbn. now rewrite lookup_empty.
Qed.

End Inv.
End LedgerInv.

Module LedgerRuns.
Import AnonVerse LedgerFacts LedgerInv.
Section Runs.
Variable this : address.

(** *** What the reads return *)

Lemma getGroup_reads groupId env l :
  getGroup groupId env l
  = match groups l !! N.to_nat groupId with
    | Some g => Ok (name g, creator g, createdAt g, memberCount g, messageCount g, secret g) l
    | None => Fail (Revert "Invalid group")
    end.
Proof.
  destruct (groups l !! N.to_nat groupId) as [g |] eqn:Hg.
  - assert (Hlt : groupId < group_count l) by (apply group_lookup_lt; eauto).
    unfold getGroup. unfold bind at 1. rewrite (validGroup_pass _ _ _ Hlt).
    tx_unfold. now rewrite Hg.
  - apply group_lookup_ge in Hg.
    unfold getGroup. unfold bind at 1. now rewrite (validGroup_reject _ _ _ Hg).
Qed.

Lemma getGroupSecret_reads groupId env l :
  getGroupSecret groupId env l
  = match groups l !! N.to_nat groupId with
    | Some g => Ok (secret g) l
    | None => Fail (Revert "Invalid group")
    end.
Proof.
  destruct (groups l !! N.to_nat groupId) as [g |] eqn:Hg.
  - assert (Hlt : groupId < group_count l) by (apply group_lookup_lt; eauto).
    unfold getGroupSecret. unfold bind at 1. rewrite (validGroup_pass _ _ _ Hlt).
    tx_unfold. now rewrite Hg.
  - apply group_lookup_ge in Hg.
    unfold getGroupSecret. unfold bind at 1. now rewrite (validGroup_reject _ _ _ Hg).
Qed.

Lemma listMembers_reads groupId env l :
  listMembers groupId env l
  = if groupId <? group_count l then Ok (member_list l groupId) l
    else Fail (Revert "Invalid group").
Proof. tx_unfold. now destruct (groupId <? group_count l). Qed.

Lemma isMember_reads groupId account env l :
  isMember groupId account env l
  = if groupId <? group_count l then Ok (member_flag l groupId account) l
    else Fail (Revert "Invalid group").
Proof. tx_unfold. now destruct (groupId <? group_count l). Qed.

Lemma getMessageCount_reads groupId env l :
  getMessageCount groupId env l
  = if groupId <? group_count l then Ok (N.of_nat (length (message_list l groupId))) l
    else Fail (Revert "Invalid group").
Proof. tx_unfold. now destruct (groupId <? group_count l). Qed.

Lemma getMessage_reads groupId index env l :
  getMessage groupId index env l
  = if groupId <? group_count l then
      match message_list l groupId !! N.to_nat index with
      | Some m => Ok m l
      | None => Fail (Revert "Invalid message index")
      end
    else Fail (Revert "Invalid group").
Proof.
  tx_unfold. cbv beta iota. destruct (groupId <? group_count l); [| reflexivity].
  cbv beta iota.
  destruct (message_list l groupId !! N.to_nat index) as [m |] eqn:Hm.
  - apply lookup_lt_Some in Hm as Hlt.
    assert (H : (index <? N.of_nat (length (message_list l groupId))) = true)
      by (apply N.ltb_lt; lia).
    now rewrite H.
  - apply lookup_ge_None in Hm as Hge.
    assert (H : (index <? N.of_nat (length (message_list l groupId))) = false)
      by (apply N.ltb_ge; lia).
    now rewrite H.
Qed.

Lemma view_commits_nothing c env l r l' :
  is_view c = true -> call this c env l = Ok r l' -> l' = l.
Proof.
  destruct c; cbn [is_view call]; try discriminate; intros _; unfold bind at 1.
  - rewrite getGroup_reads. destruct (groups l !! _); cbn; [intros [= _ <-] | discriminate]; reflexivity.
  - cbn. intros [= _ <-]. reflexivity.
  - rewrite getGroupSecret_reads. destruct (groups l !! _); cbn; [intros [= _ <-] | discriminate]; reflexivity.
  - rewrite listMembers_reads. destruct (_ <? _); cbn; [intros [= _ <-] | discriminate]; reflexivity.
  - rewrite isMember_reads. destruct (_ <? _); cbn; [intros [= _ <-] | discriminate]; reflexivity.
  - rewrite getMessageCount_reads. destruct (_ <? _); cbn; [intros [= _ <-] | discriminate]; reflexivity.
  - rewrite getMessage_reads. destruct (_ <? _); [| discriminate].
    destruct (message_list l _ !! _); cbn; [intros [= _ <-] | discriminate]; reflexivity.
Qed.

Lemma view_step c env l : is_view c = true -> step this env c l = l.
Proof.
  intros Hv. unfold step. destruct (call this c env l) as [r l' |] eqn:E; [| reflexivity].
  now apply (view_commits_nothing c env l r l').
Qed.

(** *** One transaction *)

Inductive step_shape (env : Env) (c : Call) (l : Ledger) : Ledger -> Prop :=
| shape_same : succeeds this env c l = false \/ is_view c = true -> step_shape env c l l
| shape_create name :
    c = CreateGroup name -> name <> ""%string ->
    step_shape env c l (createGroup_post this name env l)
| shape_join groupId g :
    c = JoinGroup groupId ->
    groups l !! N.to_nat groupId = Some g ->
    member_flag l groupId (msg_sender env) = false ->
    memberCount g < MAX_UINT256 ->
    step_shape env c l (joinGroup_post groupId g env l)
| shape_post groupId body g :
    c = PostMessage groupId body ->
    groups l !! N.to_nat groupId = Some g ->
    member_flag l groupId (msg_sender env) = true ->
    body <> ""%string ->
    messageCount g < MAX_UINT256 ->
    step_shape env c l (postMessage_post groupId body g env l).

Lemma step_has_shape env c l : step_shape env c l (step this env c l).
Proof.
  destruct (is_view c) eqn:Hv.
  { rewrite (view_step _ _ _ Hv). apply shape_same. now right. }
  destruct c; try discriminate.
  - destruct (createGroup_cases this name0 env l) as [[-> E] | [Hn E]].
    + unfold step, succeeds. cbn [call]. unfold bind. rewrite E.
      apply shape_same. left. unfold succeeds. cbn [call]. unfold bind. now rewrite E.
    + unfold step. cbn [call]. unfold bind. rewrite E. cbn. now apply shape_create.
  - destruct (joinGroup_cases groupId env l)
      as [[_ E] | [(_ & _ & E) | (g & Hg & Hf & [[Hm E] | [Hm E]])]];
      unfold step; cbn [call]; unfold bind; rewrite E; cbn;
      try (apply shape_same; left; unfold succeeds; cbn [call]; unfold bind; now rewrite E).
    now apply shape_join.
  - destruct (postMessage_cases groupId cipherText0 env l)
      as [[_ E] | [(_ & _ & E) | [(_ & _ & _ & E) | (g & Hg & Hf & Hb & [[Hm E] | [Hm E]])]]];
      unfold step; cbn [call]; unfold bind; rewrite E; cbn;
      try (apply shape_same; left; unfold succeeds; cbn [call]; unfold bind; now rewrite E).
    now apply shape_post.
Qed.

Lemma step_consistent env c l : consistent this l -> consistent this (step this env c l).
Proof.
  intros C. destruct (step_has_shape env c l).
  - exact C.
  - now apply createGroup_preserves.
  - now apply joinGroup_preserves.
  - now apply postMessage_preserves.
Qed.

Lemma reachable_consistent l : reachable this l -> consistent this l.
Proof.
  induction 1 as [| env c l _ IH].
  - apply initial_consistent.
  - now apply step_consistent.
Qed.

Lemma run_reachable tr l : reachable this l -> reachable this (run this tr l).
Proof.
  revert l. induction tr as [| [env c] tr IH]; intros l R; cbn; [exact R |].
  apply IH. now constructor.
Qed.

Lemma reachable_run l : reachable this l -> exists tr, l = run this tr initial.
Proof.
  induction 1 as [| env c l _ [tr ->]].
  - now exists [].
  - exists (tr ++ [(env, c)]).
    generalize initial. induction tr as [| [e d] tr IH]; intros l0; cbn; [reflexivity | apply IH].
Qed.

End Runs.
End LedgerRuns.

Module LedgerTraces.
Import AnonVerse LedgerFacts LedgerInv LedgerRuns.
Section Traces.
Variable this : address.

Lemma extends_refl l : extends l l.
Proof.
  intros groupId g Hg. exists g. split_and!; try reflexivity; try lia; auto.
Qed.

Lemma extends_trans l1 l2 l3 : extends l1 l2 -> extends l2 l3 -> extends l1 l3.
Proof.
  intros H12 H23 groupId g Hg.
  destruct (H12 _ _ Hg) as (g2 & Hg2 & ? & ? & ? & ? & ? & ? & Hf2 & Hm2 & Hl2).
  destruct (H23 _ _ Hg2) as (g3 & Hg3 & ? & ? & ? & ? & ? & ? & Hf3 & Hm3 & Hl3).
  exists g3. split_and!; try congruence; try lia; auto.
  - now transitivity (message_list l2 groupId).
  - now transitivity (member_list l2 groupId).
Qed.

Lemma step_extends env c l : extends l (step this env c l).
Proof.
  destruct (step_has_shape this env c l)
    as [_ | name _ _ | groupId0 g0 _ H0 _ _ | groupId0 body g0 _ H0 _ _ _].
  - apply extends_refl.
  - intros groupId g Hg.
    assert (groupId <> group_count l).
    { intros ->. unfold group_count in Hg. rewrite Nat2N.id in Hg.
      apply lookup_lt_Some in Hg. lia. }
    exists g. rewrite createGroup_post_group, createGroup_post_members.
    rewrite !decide_False by assumption.
    split_and!; try reflexivity; try lia; try assumption.
    intros account. rewrite createGroup_post_flag. case_decide; auto.
  - intros groupId g Hg. rewrite (joinGroup_post_group _ _ _ _ _ H0), joinGroup_post_members.
    change (message_list (joinGroup_post groupId0 g0 env l) groupId) with (message_list l groupId).
    case_decide as E.
    + subst. rewrite H0 in Hg. injection Hg as <-. eexists. split; [reflexivity |]. cbn.
      split_and!; try reflexivity; try lia.
      * intros account. rewrite joinGroup_post_flag. case_decide; auto.
      * now apply prefix_app_r.
    + exists g. split_and!; try reflexivity; try lia; auto.
      intros account. rewrite joinGroup_post_flag. case_decide; auto.
  - intros groupId g Hg.
    rewrite (postMessage_post_group _ _ _ _ _ _ H0), postMessage_post_messages.
    change (member_list (postMessage_post groupId0 body g0 env l) groupId)
      with (member_list l groupId).
    case_decide as E.
    + subst. rewrite H0 in Hg. injection Hg as <-. eexists. split; [reflexivity |]. cbn.
      split_and!; try reflexivity; try lia; auto.
      now apply prefix_app_r.
    + exists g. split_and!; try reflexivity; try lia; auto.
Qed.

Lemma run_extends tr l : extends l (run this tr l).
Proof.
  revert l. induction tr as [| [env c] tr IH]; intros l; cbn.
  - apply extends_refl.
  - eapply extends_trans; [apply step_extends | apply IH].
Qed.

(** *** Counting along an execution *)

Lemma step_group_count env c l :
  group_count (step this env c l)
  = group_count l
    + match c with
      | CreateGroup _ => if succeeds this env c l then 1 else 0
      | _ => 0
      end.
Proof.
  destruct (step_has_shape this env c l)
    as [[Hs | Hv] | name -> Hn | groupId0 g0 -> H0 _ _ | groupId0 body g0 -> H0 _ _ _].
  - rewrite Hs. destruct c; lia.
  - destruct c; try discriminate; lia.
  - rewrite createGroup_post_count. unfold succeeds. cbn [call]. unfold bind.
    now rewrite (createGroup_commits this name env l Hn).
  - rewrite joinGroup_post_count. lia.
  - rewrite postMessage_post_count. lia.
Qed.

Lemma run_group_count tr l :
  group_count (run this tr l) = group_count l + groups_created this tr l.
Proof.
  revert l. induction tr as [| [env c] tr IH]; intros l; cbn [run groups_created].
  - lia.
  - rewrite IH, step_group_count. lia.
Qed.

Lemma step_message_list env c l groupId :
  message_list (step this env c l) groupId
  = message_list l groupId
    ++ match c with
       | PostMessage g body =>
           if succeeds this env c l && (g =? groupId)
           then [mkMessage (msg_sender env) body (block_timestamp env)]
           else []
       | _ => []
       end.
Proof.
  destruct (step_has_shape this env c l)
    as [[Hs | Hv] | name -> Hn | groupId0 g0 -> H0 _ _ | groupId0 body g0 -> H0 Hf Hb Hm].
  - rewrite Hs. destruct c; now rewrite app_nil_r.
  - destruct c; try discriminate; now rewrite app_nil_r.
  - now rewrite app_nil_r.
  - now rewrite app_nil_r.
  - rewrite postMessage_post_messages. unfold succeeds. cbn [call]. unfold bind.
    rewrite (postMessage_commits _ _ _ _ _ H0 Hf Hb Hm). cbn.
    case_decide as E.
    + subst. now rewrite N.eqb_refl.
    + apply not_eq_sym in E. apply N.eqb_neq in E. rewrite E. now rewrite app_nil_r.
Qed.

Lemma run_message_list tr l groupId :
  message_list (run this tr l) groupId
  = message_list l groupId ++ messages_posted this groupId tr l.
Proof.
  revert l. induction tr as [| [env c] tr IH]; intros l; cbn [run messages_posted].
  - now rewrite app_nil_r.
  - rewrite IH, step_message_list. now rewrite app_assoc.
Qed.

(** *** Minted values stay *)

Lemma step_keeps_plaintext env c l h v :
  h < nextHandle (fhe l) ->
  plaintexts (fhe l) !! h = Some v ->
  h < nextHandle (fhe (step this env c l))
  /\ plaintexts (fhe (step this env c l)) !! h = Some v.
Proof.
  intros Hh Hv.
  destruct (step_has_shape this env c l); cbn; try (split; [lia | assumption]).
  split; [lia |]. now rewrite !lookup_insert_ne by lia.
Qed.

Lemma run_keeps_plaintext tr l h v :
  h < nextHandle (fhe l) ->
  plaintexts (fhe l) !! h = Some v ->
  plaintexts (fhe (run this tr l)) !! h = Some v.
Proof.
  revert l. induction tr as [| [env c] tr IH]; intros l Hh Hv; cbn; [exact Hv |].
  destruct (step_keeps_plaintext env c l h v Hh Hv). now apply IH.
Qed.

(** *** The counters against the length of the execution *)

Lemma step_counters env c l groupId g' :
  groups (step this env c l) !! N.to_nat groupId = Some g' ->
  (exists g, groups l !! N.to_nat groupId = Some g
     /\ memberCount g' <= memberCount g + 1 /\ messageCount g' <= messageCount g + 1)
  \/ (memberCount g' = 1 /\ messageCount g' = 0).
Proof.
  destruct (step_has_shape this env c l)
    as [_ | name _ _ | groupId0 g0 _ H0 _ _ | groupId0 body g0 _ H0 _ _ _].
  - intros Hg. left. exists g'. split_and!; [exact Hg | lia | lia].
  - rewrite createGroup_post_group. case_decide.
    + intros [= <-]. right. now split.
    + intros Hg. left. exists g'. split_and!; [exact Hg | lia | lia].
  - rewrite (joinGroup_post_group _ _ _ _ _ H0). case_decide.
    + subst. intros [= <-]. left. exists g0. cbn. split_and!; [exact H0 | lia | lia].
    + intros Hg. left. exists g'. split_and!; [exact Hg | lia | lia].
  - rewrite (postMessage_post_group _ _ _ _ _ _ H0). case_decide.
    + subst. intros [= <-]. left. exists g0. cbn. split_and!; [exact H0 | lia | lia].
    + intros Hg. left. exists g'. split_and!; [exact Hg | lia | lia].
Qed.

Lemma run_snoc tr env c l :
  run this (tr ++ [(env, c)]) l = step this env c (run this tr l).
Proof.
  revert l. induction tr as [| [e d] tr IH]; intros l; cbn; [reflexivity | apply IH].
Qed.

(** No counter is ahead of the number of transactions executed: the
    [uint256] ceiling is out of reach of any execution shorter than
    2^256 - 2 transactions. *)
Lemma counters_bounded_by_history tr groupId g :
  groups (run this tr initial) !! N.to_nat groupId = Some g ->
  memberCount g <= 1 + N.of_nat (length tr) /\ messageCount g <= N.of_nat (length tr).
Proof.
  revert groupId g. induction tr as [| [env c] tr IH] using rev_ind; intros groupId g.
  - cbn. now rewrite lookup_nil.
  - rewrite run_snoc, length_app. cbn [length]. intros Hg.
    destruct (step_counters _ _ _ _ _ Hg) as [(g0 & Hg0 & Hm & Hn) | [Hm Hn]].
    + destruct (IH _ _ Hg0). lia.
    + lia.
Qed.

Lemma step_acl_grows env c l : acl (fhe l) ⊆ acl (fhe (step this env c l)).
Proof.
  destruct (step_has_shape this env c l); cbn; set_solver.
Qed.

End Traces.
End LedgerTraces.

(** * The ledger: the specified properties *)

Module LedgerSpec.
Import AnonVerse LedgerFacts LedgerInv LedgerRuns LedgerTraces Scenario.
Section Spec.
Variable this : address.

(** C2. Group ids are allocated in sequence.  After any execution from
    the deployed ledger, [getGroupCount] returns the number of
    [createGroup] transactions that succeeded; a further [createGroup]
    either fails on the empty name, or returns that very count as the
    new group's id and leaves the count one higher. *)
Theorem group_ids_sequential (tr : list (Env * Call)) (env : Env) (name : string) :
  let l := run this tr initial in
  let n := groups_created this tr initial in
  getGroupCount env l = Ok n l
  /\ ((name = ""%string
       /\ createGroup this name env l = Fail (Revert "Group name required"))
      \/ (exists key l',
            createGroup this name env l = Ok (n, key) l'
            /\ getGroupCount env l' = Ok (n + 1) l')).
Proof.
  intros l n.
  assert (Hn : group_count l = n).
  { unfold l, n. rewrite run_group_count. reflexivity. }
  split.
  - unfold getGroupCount, gets. now rewrite Hn.
  - destruct (createGroup_cases this name env l) as [[-> E] | [Hne E]].
    + left. now split.
    + right. exists (nextHandle (fhe l) + 1), (createGroup_post this name env l).
      rewrite E, Hn. split; [reflexivity |].
      unfold getGroupCount, gets. now rewrite createGroup_post_count, Hn.
Qed.

(** C3. What [createGroup] establishes.  On a reachable ledger a call
    with a non-empty name by identity A succeeds; afterwards A is a
    member of the new group, the group reads back with creator A,
    member count 1 and message count 0 (and holds no message), its
    secret stands for the transaction's 32-bit draw reduced modulo
    1_000_000, a value in [0, 1_000_000); and whatever transactions
    follow, the group keeps that handle and the handle keeps that
    value. *)
Theorem createGroup_postcondition (l : Ledger) (env : Env) (name : string) :
  reachable this l ->
  name <> ""%string ->
  exists groupId key l' v,
    createGroup this name env l = Ok (groupId, key) l'
    /\ (forall env', isMember groupId (msg_sender env) env' l' = Ok true l')
    /\ (forall env', getGroup groupId env' l'
                     = Ok (name, msg_sender env, block_timestamp env, 1, 0, key) l')
    /\ (forall env', getMessageCount groupId env' l' = Ok 0 l')
    /\ plaintexts (fhe l') !! key = Some v
    /\ v = (entropy env mod 2 ^ 32) mod 1000000
    /\ v < 1000000
    /\ (forall tr env',
          let l'' := run this tr l' in
          getGroupSecret groupId env' l'' = Ok key l''
          /\ plaintexts (fhe l'') !! key = Some v).
Proof.
  intros R Hname. pose proof (reachable_consistent this l R) as C.
  set (l' := createGroup_post this name env l).
  set (g := mkGroup name (msg_sender env) (nextHandle (fhe l) + 1) (block_timestamp env) 1 0).
  assert (Hg : groups l' !! N.to_nat (group_count l) = Some g).
  { unfold l'. rewrite createGroup_post_group. now rewrite decide_True. }
  assert (Hlt : (group_count l <? group_count l') = true).
  { apply N.ltb_lt. unfold l'. rewrite createGroup_post_count. lia. }
  exists (group_count l), (nextHandle (fhe l) + 1), l', ((entropy env mod 2 ^ 32) mod 1000000).
  split_and!.
  - now apply createGroup_commits.
  - intros env'. rewrite isMember_reads, Hlt. unfold l'.
    rewrite createGroup_post_flag. now rewrite decide_True.
  - intros env'. rewrite getGroup_reads, Hg. reflexivity.
  - intros env'. rewrite getMessageCount_reads, Hlt.
    change (message_list l' (group_count l)) with (message_list l (group_count l)).
    rewrite (unborn_messages _ _ C) by lia. reflexivity.
  - cbn. apply lookup_insert_eq.
  - reflexivity.
  - apply N.mod_lt. lia.
  - intros tr env' l''.
    destruct (run_extends this tr l' _ _ Hg) as (g' & Hg' & _ & _ & _ & Hs & _).
    split.
    + rewrite getGroupSecret_reads. unfold l''. rewrite Hg'. now rewrite Hs.
    + apply run_keeps_plaintext.
      * cbn. lia.
      * cbn. apply lookup_insert_eq.
Qed.

(** C4. The access control list follows membership.  In every
    reachable ledger, the ledger's own identity is on the list of each
    group's secret, and so is every member of the group.  The same
    holds of the ledger any transaction leaves behind, so whoever a
    transaction made a member (the creator in [createGroup], the
    joiner in [joinGroup]) was granted access by that transaction; and
    no transaction takes an identity off a list. *)
Theorem acl_covers_members (l : Ledger) (env : Env) (groupId : N) (key : euint32)
    (account : address) :
  reachable this l ->
  getGroupSecret groupId env l = Ok key l ->
  ((key, this) ∈ acl (fhe l)
   /\ (isMember groupId account env l = Ok true l -> (key, account) ∈ acl (fhe l)))
  /\ (forall env' c,
        let l' := step this env' c l in
        acl (fhe l) ⊆ acl (fhe l')
        /\ forall groupId' key' account',
             getGroupSecret groupId' env l' = Ok key' l' ->
             isMember groupId' account' env l' = Ok true l' ->
             (key', this) ∈ acl (fhe l') /\ (key', account') ∈ acl (fhe l')).
Proof.
  assert (Inv : forall l0 g0 k0 a0,
            reachable this l0 ->
            getGroupSecret g0 env l0 = Ok k0 l0 ->
            (k0, this) ∈ acl (fhe l0)
            /\ (isMember g0 a0 env l0 = Ok true l0 -> (k0, a0) ∈ acl (fhe l0))).
  { intros l0 g0 k0 a0 R0. pose proof (reachable_consistent this l0 R0) as C.
    rewrite getGroupSecret_reads.
    destruct (groups l0 !! N.to_nat g0) as [g |] eqn:Hg; [| discriminate].
    intros [= <-]. split.
    - now apply (ledger_allowed _ _ C g0).
    - rewrite isMember_reads. destruct (g0 <? group_count l0); [| discriminate].
      intros [= Hf]. now apply (members_allowed _ _ C g0). }
  intros R Hkey. split; [now apply Inv |].
  intros env' c l'. split; [apply step_acl_grows |].
  intros groupId' key' account' Hkey' Hm'.
  assert (R' : reachable this l') by now constructor.
  destruct (Inv l' groupId' key' account' R' Hkey') as [H1 H2]. split; [exact H1 | now apply H2].
Qed.

(** C5. [postMessage] is gated by membership.  On an existing group
    holding [n] messages: a caller who is not a member is refused with
    "Join first" (the specification's Forbidden) and the ledger, its
    message count included, stays as it was; a member posting a
    non-empty body (the count being below the [uint256] ceiling, as it
    is in any execution of feasible length, see
    [counters_bounded_by_history]) succeeds; and whenever the call
    succeeds the count becomes [n + 1] in the message store and in the
    group's metadata, and the message at index [n] carries the caller
    as sender and the body given. *)
Theorem postMessage_gated (l : Ledger) (env : Env) (groupId : N) (body : string) (n : N) :
  reachable this l ->
  getMessageCount groupId env l = Ok n l ->
  (isMember groupId (msg_sender env) env l = Ok false l ->
     postMessage groupId body env l = Fail (Revert "Join first")
     /\ step this env (PostMessage groupId body) l = l
     /\ getMessageCount groupId env (step this env (PostMessage groupId body) l)
        = Ok n (step this env (PostMessage groupId body) l))
  /\ (isMember groupId (msg_sender env) env l = Ok true l ->
      body <> ""%string ->
      n < MAX_UINT256 ->
      exists l', postMessage groupId body env l = Ok tt l')
  /\ (forall l',
      postMessage groupId body env l = Ok tt l' ->
      exists name creator createdAt members key,
        getGroup groupId env l = Ok (name, creator, createdAt, members, n, key) l
        /\ getGroup groupId env l' = Ok (name, creator, createdAt, members, n + 1, key) l'
        /\ getMessageCount groupId env l' = Ok (n + 1) l'
        /\ getMessage groupId n env l'
           = Ok (mkMessage (msg_sender env) body (block_timestamp env)) l').
Proof.
  intros R. pose proof (reachable_consistent this l R) as C.
  rewrite getMessageCount_reads, isMember_reads.
  destruct (groupId <? group_count l) eqn:Hlt; [| discriminate].
  apply N.ltb_lt in Hlt. destruct (proj1 (group_lookup_lt l groupId) Hlt) as [g Hg].
  intros [= Hn].
  assert (Hc : messageCount g = n) by (rewrite <- Hn; now apply C).
  split_and!.
  - intros [= Hf].
    destruct (postMessage_cases groupId body env l)
      as [[? E] | [(_ & _ & E) | [(_ & Hf' & _) | (g' & _ & Hf' & _)]]];
      try lia; try congruence.
    assert (Es : step this env (PostMessage groupId body) l = l)
      by (unfold step; cbn [call]; unfold bind; now rewrite E).
    split; [exact E | split; [exact Es |]]. rewrite Es.
    rewrite getMessageCount_reads. apply N.ltb_lt in Hlt. now rewrite Hlt, Hn.
  - intros [= Hf] Hbody Hmax. exists (postMessage_post groupId body g env l).
    apply postMessage_commits; try assumption. lia.
  - intros l' E.
    destruct (postMessage_cases groupId body env l)
      as [[_ E'] | [(_ & _ & E') | [(_ & _ & _ & E') | (g' & Hg' & _ & _ & [[_ E'] | [_ E']])]]];
      rewrite E' in E; try discriminate.
    injection E as <-. rewrite Hg in Hg'. injection Hg' as <-.
    exists (name g), (creator g), (createdAt g), (memberCount g), (secret g).
    assert (Hlt' : (groupId <? group_count (postMessage_post groupId body g env l)) = true).
    { apply N.ltb_lt. now rewrite postMessage_post_count. }
    split_and!.
    + rewrite getGroup_reads, Hg. now rewrite Hc.
    + rewrite getGroup_reads, (postMessage_post_group _ _ _ _ _ _ Hg).
      rewrite decide_True by reflexivity. cbn. now rewrite Hc.
    + rewrite getMessageCount_reads, Hlt', postMessage_post_messages.
      rewrite decide_True by reflexivity. rewrite length_app, <- Hn. cbn.
      f_equal. lia.
    + rewrite getMessage_reads, Hlt', postMessage_post_messages.
      rewrite decide_True by reflexivity.
      rewrite lookup_app_r by lia.
      replace (N.to_nat n - length (message_list l groupId))%nat with 0%nat by lia.
      reflexivity.
Qed.

(** C6. [joinGroup]: failures and atomicity.  An unknown group id is
    refused with "Invalid group" (the specification's NotFound), a
    caller who is already a member with "Already joined"
    (AlreadyMember); a call that fails, for whatever reason, commits
    nothing: the ledger after the transaction is the ledger before it.
    A call that succeeds makes the caller a member and raises the
    member count by exactly one; and on an existing group a caller who
    is not yet a member does succeed (the count being below the
    [uint256] ceiling). *)
Theorem joinGroup_atomic (l : Ledger) (env : Env) (groupId : N) :
  (forall n, getGroupCount env l = Ok n l -> n <= groupId ->
     joinGroup groupId env l = Fail (Revert "Invalid group"))
  /\ (isMember groupId (msg_sender env) env l = Ok true l ->
      joinGroup groupId env l = Fail (Revert "Already joined"))
  /\ (forall f, joinGroup groupId env l = Fail f ->
      step this env (JoinGroup groupId) l = l)
  /\ (forall l',
      joinGroup groupId env l = Ok tt l' ->
      step this env (JoinGroup groupId) l = l'
      /\ isMember groupId (msg_sender env) env l = Ok false l
      /\ isMember groupId (msg_sender env) env l' = Ok true l'
      /\ exists name creator createdAt n messages key,
           getGroup groupId env l = Ok (name, creator, createdAt, n, messages, key) l
           /\ getGroup groupId env l' = Ok (name, creator, createdAt, n + 1, messages, key) l')
  /\ (forall name creator createdAt n messages key,
      getGroup groupId env l = Ok (name, creator, createdAt, n, messages, key) l ->
      isMember groupId (msg_sender env) env l = Ok false l ->
      n < MAX_UINT256 ->
      exists l', joinGroup groupId env l = Ok tt l').
Proof.
  split_and!.
  - intros n [= <-] Hge.
    destruct (joinGroup_cases groupId env l) as [[_ E] | [(? & _) | (g & Hg & _)]];
      [exact E | lia |].
    assert (groupId < group_count l) by (apply group_lookup_lt; eauto). lia.
  - rewrite isMember_reads. destruct (groupId <? group_count l) eqn:Hlt; [| discriminate].
    apply N.ltb_lt in Hlt. intros [= Hf].
    destruct (joinGroup_cases groupId env l) as [[? _] | [(_ & _ & E) | (g & _ & Hf' & _)]];
      [lia | exact E | congruence].
  - intros f E. unfold step. cbn [call]. unfold bind. now rewrite E.
  - intros l' E.
    assert (Es : step this env (JoinGroup groupId) l = l')
      by (unfold step; cbn [call]; unfold bind; now rewrite E).
    destruct (joinGroup_cases groupId env l)
      as [[_ E'] | [(_ & _ & E') | (g & Hg & Hf & [[_ E'] | [_ E']])]];
      rewrite E' in E; try discriminate.
    injection E as <-.
    assert (Hlt : groupId < group_count l) by (apply group_lookup_lt; eauto).
    apply N.ltb_lt in Hlt as Hlt'.
    split_and!.
    + exact Es.
    + now rewrite isMember_reads, Hlt', Hf.
    + rewrite isMember_reads, joinGroup_post_count, Hlt', joinGroup_post_flag.
      now rewrite decide_True.
    + exists (name g), (creator g), (createdAt g), (memberCount g), (messageCount g), (secret g).
      rewrite !getGroup_reads, Hg, (joinGroup_post_group _ _ _ _ _ Hg).
      now rewrite decide_True.
  - intros name creator createdAt n messages key. rewrite getGroup_reads, isMember_reads.
    destruct (groups l !! N.to_nat groupId) as [g |] eqn:Hg; [| discriminate].
    assert (Hlt : groupId < group_count l) by (apply group_lookup_lt; eauto).
    apply N.ltb_lt in Hlt as Hlt'. rewrite Hlt'.
    intros [= <- <- <- <- <- <-] [= Hf] Hmax.
    exists (joinGroup_post groupId g env l). now apply joinGroup_commits.
Qed.

(** C7. The ledger only grows.  Take any ledger and any execution from
    it.  A group that existed before still exists after, with the same
    name, creator, creation time and secret handle, and with member and
    message counts at least what they were; whoever was a member still
    is; and every message that could be read still reads the same at
    the same index. *)
Theorem ledger_monotone (l : Ledger) (tr : list (Env * Call)) (env env' : Env) (groupId : N)
    (name : string) (creator : address) (createdAt members messages : N) (key : euint32) :
  getGroup groupId env l = Ok (name, creator, createdAt, members, messages, key) l ->
  let l' := run this tr l in
  (exists members' messages',
     getGroup groupId env' l' = Ok (name, creator, createdAt, members', messages', key) l'
     /\ members <= members' /\ messages <= messages')
  /\ (forall account,
        isMember groupId account env l = Ok true l ->
        isMember groupId account env' l' = Ok true l')
  /\ (forall index m,
        getMessage groupId index env l = Ok m l ->
        getMessage groupId index env' l' = Ok m l').
Proof.
  rewrite getGroup_reads.
  destruct (groups l !! N.to_nat groupId) as [g |] eqn:Hg; [| discriminate].
  intros [= <- <- <- <- <- <-] l'.
  destruct (run_extends this tr l _ _ Hg)
    as (g' & Hg' & Hn & Hc & Ht & Hs & Hmc & Hmsg & Hflag & Hpre & _).
  fold l' in Hg', Hflag, Hpre.
  assert (Hlt : (groupId <? group_count l) = true)
    by (apply N.ltb_lt, group_lookup_lt; eauto).
  assert (Hlt' : (groupId <? group_count l') = true)
    by (apply N.ltb_lt, group_lookup_lt; eauto).
  split_and!.
  - exists (memberCount g'), (messageCount g'). rewrite getGroup_reads, Hg'.
    rewrite Hn, Hc, Ht, Hs. now split_and!.
  - intros account. rewrite !isMember_reads, Hlt, Hlt'. intros [= Hf].
    now rewrite (Hflag _ Hf).
  - intros index m. rewrite !getMessage_reads, Hlt, Hlt'.
    destruct (message_list l groupId !! N.to_nat index) as [m0 |] eqn:Hm; [| discriminate].
    intros [= <-]. now rewrite (prefix_lookup_Some _ _ _ _ Hm Hpre).
Qed.

(** C8. The reads.  No read commits anything.  On a group id that is
    not below the group count every group-indexed read is refused with
    "Invalid group" (the specification's NotFound).  On an existing
    group whose metadata counts [messages] messages, [getMessage] is
    refused with "Invalid message index" (IndexOutOfRange) at an index
    not below that count, and below it returns the message the
    execution appended at that position. *)
Theorem reads_pure_and_guarded (tr : list (Env * Call)) (env : Env) (c : Call)
    (groupId index : N) (account : address) :
  let l := run this tr initial in
  (is_view c = true ->
     step this env c l = l /\ forall r l', call this c env l = Ok r l' -> l' = l)
  /\ (forall n, getGroupCount env l = Ok n l -> n <= groupId ->
        getGroup groupId env l = Fail (Revert "Invalid group")
        /\ getGroupSecret groupId env l = Fail (Revert "Invalid group")
        /\ listMembers groupId env l = Fail (Revert "Invalid group")
        /\ isMember groupId account env l = Fail (Revert "Invalid group")
        /\ getMessageCount groupId env l = Fail (Revert "Invalid group")
        /\ getMessage groupId index env l = Fail (Revert "Invalid group"))
  /\ (forall name creator createdAt members messages key,
        getGroup groupId env l = Ok (name, creator, createdAt, members, messages, key) l ->
        getMessageCount groupId env l = Ok messages l
        /\ (messages <= index ->
            getMessage groupId index env l = Fail (Revert "Invalid message index"))
        /\ (index < messages ->
            exists m,
              messages_posted this groupId tr initial !! N.to_nat index = Some m
              /\ getMessage groupId index env l = Ok m l)).
Proof.
  intros l.
  assert (R : reachable this l) by (apply run_reachable; constructor).
  pose proof (reachable_consistent this l R) as C.
  split_and!.
  - intros Hv. split; [now apply view_step |].
    intros r l'. now apply view_commits_nothing.
  - intros n [= <-] Hge. apply N.ltb_ge in Hge as Hge'.
    rewrite getGroup_reads, getGroupSecret_reads, listMembers_reads, isMember_reads,
      getMessageCount_reads, getMessage_reads, Hge'.
    rewrite (proj1 (group_lookup_ge l groupId) Hge). now split_and!.
  - intros name creator createdAt members messages key. rewrite getGroup_reads.
    destruct (groups l !! N.to_nat groupId) as [g |] eqn:Hg; [| discriminate].
    intros [= <- <- <- <- <- <-].
    assert (Hlt : (groupId <? group_count l) = true)
      by (apply N.ltb_lt, group_lookup_lt; eauto).
    pose proof (messages_counted _ _ C _ _ Hg) as Hc.
    assert (Hm : message_list l groupId = messages_posted this groupId tr initial).
    { unfold l. rewrite run_message_list. unfold message_list at 1. cbn.
      now rewrite lookup_empty. }
    rewrite getMessageCount_reads, getMessage_reads, Hlt. split_and!.
    + now rewrite Hc.
    + intros Hge. rewrite (proj2 (lookup_ge_None _ _)) by lia. reflexivity.
    + intros Hi.
      destruct (lookup_lt_is_Some_2 (message_list l groupId) (N.to_nat index)) as [m Hl]; [lia |].
      exists m. rewrite <- Hm. split; [exact Hl | now rewrite Hl].
Qed.

(** C9. Order of the checks in [postMessage].  An unknown group id is
    refused with "Invalid group" (the specification's NotFound)
    whatever the caller and the body.  On an existing group a caller
    who is not a member is refused with "Join first" (Forbidden)
    whatever the body, the empty one included.  So a refusal with
    "Message required" (InvalidArgument) tells that the group exists,
    the caller is a member and the body is empty; and a member posting
    the empty body to an existing group does get it. *)
Theorem postMessage_check_order (l : Ledger) (env : Env) (groupId : N) (body : string) :
  (forall n, getGroupCount env l = Ok n l -> n <= groupId ->
     postMessage groupId body env l = Fail (Revert "Invalid group"))
  /\ (isMember groupId (msg_sender env) env l = Ok false l ->
      postMessage groupId body env l = Fail (Revert "Join first")
      /\ postMessage groupId "" env l = Fail (Revert "Join first"))
  /\ (postMessage groupId body env l = Fail (Revert "Message required") ->
      isMember groupId (msg_sender env) env l = Ok true l /\ body = ""%string)
  /\ (isMember groupId (msg_sender env) env l = Ok true l ->
      postMessage groupId "" env l = Fail (Revert "Message required")).
Proof.
  assert (Hnf : forall b, isMember groupId (msg_sender env) env l = Ok false l ->
            postMessage groupId b env l = Fail (Revert "Join first")).
  { intros b. rewrite isMember_reads.
    destruct (groupId <? group_count l) eqn:Hlt; [| discriminate].
    apply N.ltb_lt in Hlt. intros [= Hf].
    destruct (postMessage_cases groupId b env l)
      as [[? _] | [(_ & _ & E) | [(_ & Hf' & _) | (g & _ & Hf' & _)]]];
      [lia | exact E | congruence | congruence]. }
  split_and!.
  - intros n [= <-] Hge.
    destruct (postMessage_cases groupId body env l)
      as [[_ E] | [(? & _) | [(? & _) | (g & Hg & _)]]]; [exact E | lia | lia |].
    assert (groupId < group_count l) by (apply group_lookup_lt; eauto). lia.
  - intros H. split; now apply Hnf.
  - intros E. rewrite isMember_reads.
    destruct (postMessage_cases groupId body env l)
      as [[_ E'] | [(_ & _ & E') | [(Hlt & Hf & Hb & _) | (g & _ & _ & _ & [[_ E'] | [_ E']])]]];
      try congruence.
    apply N.ltb_lt in Hlt. now rewrite Hlt, Hf.
  - rewrite isMember_reads. destruct (groupId <? group_count l) eqn:Hlt; [| discriminate].
    apply N.ltb_lt in Hlt. intros [= Hf].
    destruct (postMessage_cases groupId "" env l)
      as [[? _] | [(_ & Hf' & _) | [(_ & _ & _ & E) | (g & _ & _ & Hb & _)]]];
      [lia | congruence | exact E | congruence].
Qed.

(** C10. The member list agrees with the rest.  In a reachable ledger,
    for an existing group, [listMembers] returns a list whose length is
    the group's member count, with no identity twice, starting with the
    group's creator, and holding exactly the identities for which
    [isMember] answers true. *)
Theorem member_list_consistent (l : Ledger) (env : Env) (groupId : N)
    (name : string) (creator : address) (createdAt members messages : N) (key : euint32) :
  reachable this l ->
  getGroup groupId env l = Ok (name, creator, createdAt, members, messages, key) l ->
  exists ms,
    listMembers groupId env l = Ok ms l
    /\ members = N.of_nat (length ms)
    /\ NoDup ms
    /\ head ms = Some creator
    /\ (forall account, account ∈ ms <-> isMember groupId account env l = Ok true l).
Proof.
  intros R. pose proof (reachable_consistent this l R) as C.
  rewrite getGroup_reads.
  destruct (groups l !! N.to_nat groupId) as [g |] eqn:Hg; [| discriminate].
  intros [= <- <- <- <- <- <-].
  assert (Hlt : (groupId <? group_count l) = true)
    by (apply N.ltb_lt, group_lookup_lt; eauto).
  exists (member_list l groupId). rewrite listMembers_reads, Hlt. split_and!.
  - reflexivity.
  - now apply C.
  - apply C.
  - now apply C.
  - intros account. rewrite isMember_reads, Hlt, <- (members_flagged _ _ C).
    split; [now intros -> | now intros [= ->]].
Qed.

End Spec.

(** *** The theorems at work on a small execution

    Identity 7 creates "Alpha", identity 8 joins it and posts "abcd";
    the ledger's own identity is 99. *)

Lemma demo_reachable : reachable 99 (run 99 demo initial).
Proof. apply run_reachable. constructor. Defined.

Lemma createGroup_postcondition_witness :
  reachable 99 initial /\ "Alpha"%string <> ""%string
  /\ exists groupId key l' v,
       createGroup 99 "Alpha" alice initial = Ok (groupId, key) l'
       /\ (forall env', isMember groupId (msg_sender alice) env' l' = Ok true l')
       /\ (forall env', getGroup groupId env' l'
                        = Ok ("Alpha"%string, msg_sender alice, block_timestamp alice, 1, 0, key) l')
       /\ (forall env', getMessageCount groupId env' l' = Ok 0 l')
       /\ plaintexts (fhe l') !! key = Some v
       /\ v = (entropy alice mod 2 ^ 32) mod 1000000
       /\ v < 1000000
       /\ (forall tr env',
             let l'' := run 99 tr l' in
             getGroupSecret groupId env' l'' = Ok key l''
             /\ plaintexts (fhe l'') !! key = Some v).
Proof.
  split; [constructor | split; [discriminate |]].
  apply (createGroup_postcondition 99 initial alice "Alpha"); [constructor | discriminate].
Defined.

Lemma acl_covers_members_witness :
  reachable 99 (run 99 demo initial)
  /\ getGroupSecret 0 alice (run 99 demo initial) = Ok 1 (run 99 demo initial)
  /\ isMember 0 8 alice (run 99 demo initial) = Ok true (run 99 demo initial)
  /\ (1, 99) ∈ acl (fhe (run 99 demo initial))
  /\ (1, 8) ∈ acl (fhe (run 99 demo initial)).
Proof.
  assert (Hs : getGroupSecret 0 alice (run 99 demo initial) = Ok 1 (run 99 demo initial))
    by (vm_compute; reflexivity).
  assert (Hm : isMember 0 8 alice (run 99 demo initial) = Ok true (run 99 demo initial))
    by (vm_compute; reflexivity).
  split; [exact demo_reachable | split; [exact Hs | split; [exact Hm |]]].
  destruct (acl_covers_members 99 (run 99 demo initial) alice 0 1 8 demo_reachable Hs)
    as [[H1 H2] _].
  split; [exact H1 | exact (H2 Hm)].
Defined.

Lemma postMessage_gated_witness :
  reachable 99 (run 99 demo initial)
  /\ getMessageCount 0 bob (run 99 demo initial) = Ok 1 (run 99 demo initial)
  /\ isMember 0 (msg_sender bob) bob (run 99 demo initial) = Ok true (run 99 demo initial)
  /\ "efgh"%string <> ""%string
  /\ 1 < MAX_UINT256
  /\ exists l', postMessage 0 "efgh" bob (run 99 demo initial) = Ok tt l'.
Proof.
  assert (Hc : getMessageCount 0 bob (run 99 demo initial) = Ok 1 (run 99 demo initial))
    by (vm_compute; reflexivity).
  assert (Hm : isMember 0 (msg_sender bob) bob (run 99 demo initial)
               = Ok true (run 99 demo initial))
    by (vm_compute; reflexivity).
  assert (Hb : "efgh"%string <> ""%string) by discriminate.
  assert (Hx : 1 < MAX_UINT256) by (vm_compute; reflexivity).
  split_and!; try assumption; [exact demo_reachable |].
  destruct (postMessage_gated 99 (run 99 demo initial) bob 0 "efgh" 1 demo_reachable Hc)
    as (_ & H & _).
  exact (H Hm Hb Hx).
Defined.

Lemma joinGroup_atomic_witness :
  getGroup 0 carol (run 99 demo initial)
  = Ok ("Alpha"%string, 7, 100, 2, 1, 1) (run 99 demo initial)
  /\ isMember 0 (msg_sender carol) carol (run 99 demo initial) = Ok false (run 99 demo initial)
  /\ 2 < MAX_UINT256
  /\ exists l', joinGroup 0 carol (run 99 demo initial) = Ok tt l'.
Proof.
  assert (Hg : getGroup 0 carol (run 99 demo initial)
               = Ok ("Alpha"%string, 7, 100, 2, 1, 1) (run 99 demo initial))
    by (vm_compute; reflexivity).
  assert (Hm : isMember 0 (msg_sender carol) carol (run 99 demo initial)
               = Ok false (run 99 demo initial))
    by (vm_compute; reflexivity).
  assert (Hx : 2 < MAX_UINT256) by (vm_compute; reflexivity).
  split_and!; try assumption.
  destruct (joinGroup_atomic 99 (run 99 demo initial) carol 0) as (_ & _ & _ & _ & H).
  exact (H "Alpha"%string 7 100 2 1 1 Hg Hm Hx).
Defined.

Lemma ledger_monotone_witness :
  getGroup 0 alice (run 99 [(alice, CreateGroup "Alpha")] initial)
  = Ok ("Alpha"%string, 7, 100, 1, 0, 1) (run 99 [(alice, CreateGroup "Alpha")] initial)
  /\ exists members' messages',
       getGroup 0 bob (run 99 demo initial)
       = Ok ("Alpha"%string, 7, 100, members', messages', 1) (run 99 demo initial)
       /\ 1 <= members' /\ 0 <= messages'.
Proof.
  assert (Hg : getGroup 0 alice (run 99 [(alice, CreateGroup "Alpha")] initial)
               = Ok ("Alpha"%string, 7, 100, 1, 0, 1)
                   (run 99 [(alice, CreateGroup "Alpha")] initial))
    by (vm_compute; reflexivity).
  split; [exact Hg |].
  exact (proj1 (ledger_monotone 99 (run 99 [(alice, CreateGroup "Alpha")] initial)
                  [(bob, JoinGroup 0); (bob, PostMessage 0 "abcd")]
                  alice bob 0 "Alpha" 7 100 1 0 1 Hg)).
Defined.

Lemma reads_pure_and_guarded_witness :
  getGroup 0 carol (run 99 demo initial)
  = Ok ("Alpha"%string, 7, 100, 2, 1, 1) (run 99 demo initial)
  /\ 0 < 1
  /\ exists m,
       messages_posted 99 0 demo initial !! N.to_nat 0 = Some m
       /\ getMessage 0 0 carol (run 99 demo initial) = Ok m (run 99 demo initial).
Proof.
  assert (Hg : getGroup 0 carol (run 99 demo initial)
               = Ok ("Alpha"%string, 7, 100, 2, 1, 1) (run 99 demo initial))
    by (vm_compute; reflexivity).
  split; [exact Hg | split; [lia |]].
  destruct (reads_pure_and_guarded 99 demo carol GetGroupCount 0 0 0) as (_ & _ & H).
  destruct (H "Alpha"%string 7 100 2 1 1 Hg) as (_ & _ & H').
  apply H'. lia.
Defined.

Lemma postMessage_check_order_witness :
  isMember 0 (msg_sender carol) carol (run 99 demo initial) = Ok false (run 99 demo initial)
  /\ postMessage 0 "" carol (run 99 demo initial) = Fail (Revert "Join first").
Proof.
  assert (Hm : isMember 0 (msg_sender carol) carol (run 99 demo initial)
               = Ok false (run 99 demo initial))
    by (vm_compute; reflexivity).
  split; [exact Hm |].
  destruct (postMessage_check_order (run 99 demo initial) carol 0 "zz") as (_ & H & _).
  exact (proj2 (H Hm)).
Defined.

Lemma member_list_consistent_witness :
  reachable 99 (run 99 demo initial)
  /\ getGroup 0 carol (run 99 demo initial)
     = Ok ("Alpha"%string, 7, 100, 2, 1, 1) (run 99 demo initial)
  /\ exists ms,
       listMembers 0 carol (run 99 demo initial) = Ok ms (run 99 demo initial)
       /\ 2 = N.of_nat (length ms)
       /\ NoDup ms
       /\ head ms = Some 7
       /\ (forall account,
             account ∈ ms
             <-> isMember 0 account carol (run 99 demo initial) = Ok true (run 99 demo initial)).
Proof.
  assert (Hg : getGroup 0 carol (run 99 demo initial)
               = Ok ("Alpha"%string, 7, 100, 2, 1, 1) (run 99 demo initial))
    by (vm_compute; reflexivity).
  split; [exact demo_reachable | split; [exact Hg |]].
  exact (member_list_consistent 99 (run 99 demo initial) carol 0 "Alpha" 7 100 2 1 1
           demo_reachable Hg).
Defined.

End LedgerSpec.

(** * The cipher: lemmas *)

Module CipherFacts.
Import Crypto.
Local Open Scope Z_scope.

Ltac euclid := Z.div_mod_to_equations; lia.

Ltac registers :=
  cbn [bytes_needed bytes_seen code_point lower_boundary upper_boundary].

(** *** Bit operations as arithmetic *)

Lemma lor_high_low (hi lo n : Z) :
  0 <= n -> 0 <= lo < 2 ^ n -> Z.lor (hi * 2 ^ n) lo = hi * 2 ^ n + lo.
Proof.
  intros Hn Hlo.
  assert (D : Z.land (hi * 2 ^ n) lo = 0).
  { apply Z.bits_inj'. intros i Hi. rewrite Z.land_spec, Z.bits_0.
    destruct (Z.lt_ge_cases i n) as [Hlt | Hge].
    - now rewrite Z.mul_pow2_bits_low by lia.
    - rewrite <- (Z.mod_small lo (2 ^ n)) by lia.
      rewrite Z.mod_pow2_bits_high by lia. apply andb_false_r. }
  rewrite <- Z.lxor_lor by exact D. symmetry. now apply Z.add_nocarry_lxor.
Qed.

Lemma land_63 (x : Z) : Z.land x 0x3F = x mod 64.
Proof. change 0x3F with (Z.ones 6). now rewrite Z.land_ones by lia. Qed.

Lemma continuation_byte (x : Z) : Z.lor 0x80 (Z.land x 0x3F) = 128 + x mod 64.
Proof.
  rewrite land_63. change 0x80 with (1 * 2 ^ 7).
  rewrite lor_high_low; [lia | lia |]. euclid.
Qed.

Lemma accumulate (acc b : Z) :
  Z.lor (Z.shiftl acc 6) (Z.land b 0x3F) = acc * 64 + b mod 64.
Proof.
  rewrite land_63, Z.shiftl_mul_pow2 by lia.
  rewrite lor_high_low; [lia | lia |]. euclid.
Qed.

Lemma lxor_byte (a b : Z) : 0 <= a < 256 -> 0 <= b < 256 -> 0 <= Z.lxor a b < 256.
Proof.
  intros Ha Hb. split; [apply Z.lxor_nonneg; lia |].
  destruct (Z.eq_dec (Z.lxor a b) 0) as [-> | Hne]; [lia |].
  assert (0 < Z.lxor a b) by (pose proof (proj2 (Z.lxor_nonneg a b)); lia).
  change 256 with (2 ^ 8). apply Z.log2_lt_pow2; [assumption |].
  pose proof (Z.log2_lxor a b ltac:(lia) ltac:(lia)) as Hl.
  assert (Z.log2 a < 8).
  { destruct (Z.eq_dec a 0) as [-> | ?]; [cbn; lia |]. apply Z.log2_lt_pow2; lia. }
  assert (Z.log2 b < 8).
  { destruct (Z.eq_dec b 0) as [-> | ?]; [cbn; lia |]. apply Z.log2_lt_pow2; lia. }
  lia.
Qed.

Lemma lxor_cancel (a b : Z) : Z.lxor (Z.lxor a b) b = a.
Proof. now rewrite Z.lxor_assoc, Z.lxor_nilpotent, Z.lxor_0_r. Qed.

(** *** The UTF-8 encoder in arithmetic form *)

Lemma encode_1 cp : 0 <= cp <= 0x7F -> utf8_encode_scalar cp = [cp].
Proof. intros H. unfold utf8_encode_scalar. now rewrite (proj2 (Z.leb_le _ _)) by lia. Qed.

Lemma encode_2 cp :
  0x80 <= cp <= 0x7FF -> utf8_encode_scalar cp = [192 + cp / 64; 128 + cp mod 64].
Proof.
  intros H. unfold utf8_encode_scalar.
  rewrite (proj2 (Z.leb_gt _ _)) by lia. rewrite (proj2 (Z.leb_le _ _)) by lia.
  rewrite continuation_byte, Z.shiftr_div_pow2 by lia. f_equal. change (2 ^ 6) with 64. lia.
Qed.

Lemma encode_3 cp :
  0x800 <= cp <= 0xFFFF ->
  utf8_encode_scalar cp = [224 + cp / 4096; 128 + (cp / 64) mod 64; 128 + cp mod 64].
Proof.
  intros H. unfold utf8_encode_scalar.
  rewrite !(proj2 (Z.leb_gt _ _)) by lia. rewrite (proj2 (Z.leb_le _ _)) by lia.
  rewrite !continuation_byte, !Z.shiftr_div_pow2 by lia.
  change (2 ^ 6) with 64. change (2 ^ 12) with 4096. f_equal. lia.
Qed.

Lemma encode_4 cp :
  0x10000 <= cp ->
  utf8_encode_scalar cp
  = [240 + cp / 262144; 128 + (cp / 4096) mod 64; 128 + (cp / 64) mod 64; 128 + cp mod 64].
Proof.
  intros H. unfold utf8_encode_scalar.
  rewrite !(proj2 (Z.leb_gt _ _)) by lia.
  rewrite !continuation_byte, !Z.shiftr_div_pow2 by lia.
  change (2 ^ 6) with 64. change (2 ^ 12) with 4096. change (2 ^ 18) with 262144.
  f_equal. lia.
Qed.

(** *** The UTF-8 decoder on what the encoder wrote *)

Lemma decode_lead (b : Z) (rest : bytes) :
  utf8_decode utf8_start (b :: rest)
  = match utf8_lead b with
    | Continue st' => utf8_decode st' rest
    | Emit cp => cp :: utf8_decode utf8_start rest
    | Error => 0xFFFD :: utf8_decode utf8_start rest
    end.
Proof. reflexivity. Qed.

Lemma decode_continuation (st : Utf8State) (b : Z) (rest : bytes) :
  bytes_needed st <> 0 ->
  lower_boundary st <= b <= upper_boundary st ->
  utf8_decode st (b :: rest)
  = if bytes_seen st + 1 =? bytes_needed st
    then Z.lor (Z.shiftl (code_point st) 6) (Z.land b 0x3F) :: utf8_decode utf8_start rest
    else utf8_decode
           (mkUtf8 (Z.lor (Z.shiftl (code_point st) 6) (Z.land b 0x3F))
                   (bytes_needed st) (bytes_seen st + 1) 0x80 0xBF) rest.
Proof.
  intros Hn Hb. cbn [utf8_decode].
  rewrite (proj2 (Z.eqb_neq _ _) Hn). unfold utf8_continuation.
  rewrite (proj2 (Z.leb_le _ _) (proj1 Hb)), (proj2 (Z.leb_le _ _) (proj2 Hb)). cbn [andb].
  now destruct (bytes_seen st + 1 =? bytes_needed st).
Qed.

Lemma lead_1 b : 0 <= b <= 0x7F -> utf8_lead b = Emit b.
Proof.
  intros H. unfold utf8_lead.
  now rewrite (proj2 (Z.leb_le _ _) (proj1 H)), (proj2 (Z.leb_le _ _) (proj2 H)).
Qed.

Lemma lead_2 b :
  0xC2 <= b <= 0xDF -> utf8_lead b = Continue (mkUtf8 (b mod 32) 1 0 0x80 0xBF).
Proof.
  intros H. unfold utf8_lead.
  rewrite (proj2 (Z.leb_gt b 0x7F)) by lia. rewrite andb_false_r.
  rewrite (proj2 (Z.leb_le _ _) (proj1 H)), (proj2 (Z.leb_le _ _) (proj2 H)). cbn [andb].
  change 0x1F with (Z.ones 5). now rewrite Z.land_ones by lia.
Qed.

Lemma lead_3 b :
  0xE0 <= b <= 0xEF ->
  utf8_lead b
  = Continue (mkUtf8 (b mod 16) 2 0 (if b =? 0xE0 then 0xA0 else 0x80)
                (if b =? 0xED then 0x9F else 0xBF)).
Proof.
  intros H. unfold utf8_lead.
  rewrite (proj2 (Z.leb_gt b 0x7F)) by lia. rewrite andb_false_r.
  rewrite (proj2 (Z.leb_gt b 0xDF)) by lia. rewrite andb_false_r.
  rewrite (proj2 (Z.leb_le _ _) (proj1 H)), (proj2 (Z.leb_le _ _) (proj2 H)). cbn [andb].
  change 0xF with (Z.ones 4). now rewrite Z.land_ones by lia.
Qed.

Lemma lead_4 b :
  0xF0 <= b <= 0xF4 ->
  utf8_lead b
  = Continue (mkUtf8 (b mod 8) 3 0 (if b =? 0xF0 then 0x90 else 0x80)
                (if b =? 0xF4 then 0x8F else 0xBF)).
Proof.
  intros H. unfold utf8_lead.
  rewrite (proj2 (Z.leb_gt b 0x7F)) by lia. rewrite andb_false_r.
  rewrite (proj2 (Z.leb_gt b 0xDF)) by lia. rewrite andb_false_r.
  rewrite (proj2 (Z.leb_gt b 0xEF)) by lia. rewrite andb_false_r.
  rewrite (proj2 (Z.leb_le _ _) (proj1 H)), (proj2 (Z.leb_le _ _) (proj2 H)). cbn [andb].
  change 0x7 with (Z.ones 3). now rewrite Z.land_ones by lia.
Qed.

Lemma decode_encoded (cp : Z) (rest : bytes) :
  scalar_value cp ->
  utf8_decode utf8_start (utf8_encode_scalar cp ++ rest) = cp :: utf8_decode utf8_start rest.
Proof.
  intros Hs.
  destruct (Z.le_gt_cases cp 0x7F) as [H1 | H1];
    [| destruct (Z.le_gt_cases cp 0x7FF) as [H2 | H2];
       [| destruct (Z.le_gt_cases cp 0xFFFF) as [H3 | H3]]].
  - assert (0 <= cp) by (destruct Hs; lia).
    rewrite encode_1 by lia. cbn [app]. rewrite decode_lead, lead_1 by lia. reflexivity.
  - rewrite encode_2 by lia. cbn [app].
    rewrite decode_lead, lead_2 by euclid.
    rewrite decode_continuation; registers; [| lia | euclid].
    change (0 + 1 =? 1) with true. cbv iota.
    rewrite accumulate. f_equal. euclid.
  - rewrite encode_3 by lia. cbn [app].
    rewrite decode_lead, lead_3 by euclid.
    rewrite decode_continuation; registers; [| lia |].
    2:{ destruct (Z.eqb_spec (224 + cp / 4096) 224);
        destruct (Z.eqb_spec (224 + cp / 4096) 237); destruct Hs; euclid. }
    change (0 + 1 =? 2) with false. cbv iota.
    rewrite decode_continuation; registers; [| lia | euclid].
    change (0 + 1 + 1 =? 2) with true. cbv iota.
    rewrite !accumulate. f_equal. euclid.
  - assert (cp < 0x110000) by (destruct Hs; lia).
    rewrite encode_4 by lia. cbn [app].
    rewrite decode_lead, lead_4 by euclid.
    rewrite decode_continuation; registers; [| lia |].
    2:{ destruct (Z.eqb_spec (240 + cp / 262144) 240);
        destruct (Z.eqb_spec (240 + cp / 262144) 244); euclid. }
    change (0 + 1 =? 3) with false. cbv iota.
    rewrite decode_continuation; registers; [| lia | euclid].
    change (0 + 1 + 1 =? 3) with false. cbv iota.
    rewrite decode_continuation; registers; [| lia | euclid].
    change (0 + 1 + 1 + 1 =? 3) with true. cbv iota.
    rewrite !accumulate. f_equal. euclid.
Qed.

Lemma decode_encode_scalars (cps : list Z) :
  Forall scalar_value cps ->
  utf8_decode utf8_start (flat_map utf8_encode_scalar cps) = cps.
Proof.
  induction 1 as [| cp cps Hcp _ IH]; [reflexivity |].
  cbn [flat_map]. rewrite decode_encoded by exact Hcp. now rewrite IH.
Qed.

Lemma encoded_bytes (cp : Z) :
  scalar_value cp -> Forall (fun b => 0 <= b < 256) (utf8_encode_scalar cp).
Proof.
  intros Hs.
  destruct (Z.le_gt_cases cp 0x7F) as [H1 | H1];
    [| destruct (Z.le_gt_cases cp 0x7FF) as [H2 | H2];
       [| destruct (Z.le_gt_cases cp 0xFFFF) as [H3 | H3]]].
  - assert (0 <= cp) by (destruct Hs; lia).
    rewrite encode_1 by lia. repeat constructor; lia.
  - rewrite encode_2 by lia. repeat constructor; euclid.
  - rewrite encode_3 by lia. repeat constructor; euclid.
  - assert (cp < 0x110000) by (destruct Hs; lia).
    rewrite encode_4 by lia. repeat constructor; euclid.
Qed.

(** *** Code units and scalar values *)

Lemma surrogate_pair (u v : Z) :
  is_high_surrogate u = true -> is_low_surrogate v = true ->
  let cp := 0x10000 + Z.shiftl (u - 0xD800) 10 + (v - 0xDC00) in
  scalar_value cp /\ 0xFFFF < cp /\ from_scalar cp = [u; v].
Proof.
  unfold is_high_surrogate, is_low_surrogate. intros Hu Hv.
  apply andb_prop in Hu as [Hu1 Hu2]. apply andb_prop in Hv as [Hv1 Hv2].
  apply Z.leb_le in Hu1, Hu2, Hv1, Hv2.
  rewrite Z.shiftl_mul_pow2 by lia. change (2 ^ 10) with 1024. cbv zeta.
  split_and!.
  - right. lia.
  - lia.
  - unfold from_scalar. rewrite (proj2 (Z.leb_gt _ _)) by lia.
    rewrite Z.shiftr_div_pow2 by lia. change 0x3FF with (Z.ones 10).
    rewrite Z.land_ones by lia. change (2 ^ 10) with 1024.
    f_equal; [euclid | f_equal; euclid].
Qed.

Lemma plain_unit (u : Z) :
  0 <= u < 65536 -> is_high_surrogate u = false -> is_low_surrogate u = false ->
  scalar_value u /\ from_scalar u = [u].
Proof.
  unfold is_high_surrogate, is_low_surrogate, scalar_value, from_scalar. intros Hr Hh Hl.
  rewrite (proj2 (Z.leb_le u 0xFFFF)) by lia. split; [| reflexivity].
  destruct (Z.leb_spec 0xD800 u), (Z.leb_spec u 0xDBFF), (Z.leb_spec 0xDC00 u),
    (Z.leb_spec u 0xDFFF); cbn in Hh, Hl; try discriminate; lia.
Qed.

Lemma well_formed_scalars (n : nat) (s : jsstring) :
  (length s <= n)%nat ->
  well_formed s = true ->
  Forall scalar_value (to_scalars s)
  /\ from_scalars (to_scalars s) = s
  /\ (head s <> Some 0xFEFF -> strip_bom (to_scalars s) = to_scalars s).
Proof.
  revert s. induction n as [| n IH]; intros s Hlen Hwf.
  { destruct s; [| cbn in Hlen; lia]. cbn. split_and!; [constructor | reflexivity | reflexivity]. }
  destruct s as [| u rest]; [cbn; split_and!; [constructor | reflexivity | reflexivity] |].
  cbn [well_formed] in Hwf.
  apply andb_prop in Hwf as [Hr Hwf]. apply andb_prop in Hr as [Hr1 Hr2].
  apply Z.leb_le in Hr1. apply Z.ltb_lt in Hr2.
  cbn [to_scalars]. destruct (is_high_surrogate u) eqn:Hh.
  - destruct rest as [| v rest']; [discriminate |].
    apply andb_prop in Hwf as [Hv Hwf]. rewrite Hv.
    destruct (surrogate_pair u v Hh Hv) as (Hs & Hbig & Hback).
    destruct (IH rest' ltac:(cbn in Hlen; lia) Hwf) as (IH1 & IH2 & _).
    split_and!.
    + now constructor.
    + unfold from_scalars in *. cbn [flat_map]. rewrite Hback, IH2. reflexivity.
    + intros _. cbn [strip_bom]. now rewrite (proj2 (Z.eqb_neq _ _)) by lia.
  - apply andb_prop in Hwf as [Hl Hwf]. apply negb_true_iff in Hl. rewrite Hl.
    destruct (plain_unit u ltac:(lia) Hh Hl) as [Hs Hback].
    destruct (IH rest ltac:(cbn in Hlen; lia) Hwf) as (IH1 & IH2 & _).
    split_and!.
    + now constructor.
    + unfold from_scalars in *. cbn [flat_map]. rewrite Hback, IH2. reflexivity.
    + intros Hne. cbn [strip_bom]. destruct (Z.eqb_spec u 0xFEFF) as [-> | _]; [| reflexivity].
      now contradiction Hne.
Qed.

Lemma text_codec (s : jsstring) :
  well_formed s = true ->
  head s <> Some 0xFEFF ->
  TextDecoder_decode (TextEncoder_encode s) = s
  /\ Forall (fun b => 0 <= b < 256) (TextEncoder_encode s).
Proof.
  intros Hwf Hne.
  destruct (well_formed_scalars (length s) s (le_n _) Hwf) as (Hs & Hback & Hbom).
  unfold TextDecoder_decode, TextEncoder_encode. split.
  - rewrite decode_encode_scalars by exact Hs. now rewrite Hbom.
  - clear Hback Hbom. induction Hs as [| cp cps Hcp _ IH]; [constructor |].
    cbn [flat_map]. apply Forall_app. split; [now apply encoded_bytes | exact IH].
Qed.

(** *** Two hexadecimal digits per byte *)

Lemma below_256 (P : Z -> bool) :
  forallb P (map Z.of_nat (seq 0 256)) = true ->
  forall v, 0 <= v < 256 -> P v = true.
Proof.
  intros H v Hv. rewrite forallb_forall in H. apply H.
  apply in_map_iff. exists (Z.to_nat v). split; [lia |].
  apply in_seq. lia.
Qed.

Lemma hex_pair (v : Z) :
  0 <= v < 256 ->
  exists a b,
    padStart2 (toString16 v) = [a; b]
    /\ is_line_terminator a = false /\ is_line_terminator b = false
    /\ parseInt16 [a; b] = Some v.
Proof.
  intros Hv.
  pose proof (below_256
    (fun v => match padStart2 (toString16 v) with
              | [a; b] =>
                  negb (is_line_terminator a) && negb (is_line_terminator b)
                  && match parseInt16 [a; b] with Some w => w =? v | None => false end
              | _ => false
              end) ltac:(vm_compute; reflexivity) v Hv) as H.
  cbv beta in H.
  destruct (padStart2 (toString16 v)) as [| a [| b [| ? ?]]]; try discriminate.
  exists a, b. apply andb_prop in H as [H H3]. apply andb_prop in H as [H1 H2].
  apply negb_true_iff in H1, H2.
  destruct (parseInt16 [a; b]) as [w |]; [| discriminate]. apply Z.eqb_eq in H3. subst w.
  now split_and!.
Qed.

Lemma match_pairs_hex (vs : bytes) :
  Forall (fun v => 0 <= v < 256) vs ->
  map parseInt16 (match_pairs (concat (map (fun val => padStart2 (toString16 val)) vs)))
  = map Some vs.
Proof.
  induction 1 as [| v vs Hv _ IH]; [reflexivity |].
  destruct (hex_pair v Hv) as (a & b & E & Ha & Hb & Hp).
  cbn [map concat]. rewrite E. cbn [app match_pairs]. rewrite Ha, Hb.
  cbn [map]. now rewrite Hp, IH.
Qed.

(** *** The key stream *)

Lemma keyBytes_bytes (key : Z) :
  exists k0 k1 k2 k3,
    keyBytes key = [k0; k1; k2; k3]
    /\ 0 <= k0 < 256 /\ 0 <= k1 < 256 /\ 0 <= k2 < 256 /\ 0 <= k3 < 256.
Proof.
  unfold keyBytes. do 4 eexists. split; [reflexivity |].
  change 0xFF with (Z.ones 8). rewrite !Z.land_ones by lia.
  split_and!; apply Z.mod_pos_bound; lia.
Qed.

Lemma key_stream (key : Z) (idx : nat) :
  exists k, keyBytes key !! (idx mod length (keyBytes key))%nat = Some k /\ 0 <= k < 256.
Proof.
  destruct (keyBytes_bytes key) as (k0 & k1 & k2 & k3 & E & H0 & H1 & H2 & H3).
  rewrite E. cbn [length].
  pose proof (Nat.mod_upper_bound idx 4 ltac:(lia)) as Hi.
  destruct (idx mod 4)%nat as [| [| [| [| ?]]]]; try lia; cbn; eauto.
Qed.

Lemma xor_twice_stream (ks : nat -> option Z) (bs : bytes) :
  (forall idx, exists k, ks idx = Some k /\ 0 <= k < 256) ->
  Forall (fun b => 0 <= b < 256) bs ->
  Forall (fun b => 0 <= b < 256)
    (imap (fun idx byte => to_uint8 (xor_number (Some byte) (ks idx))) bs)
  /\ map to_uint8
       (imap (fun idx byte => xor_number byte (ks idx))
          (map Some (imap (fun idx byte => to_uint8 (xor_number (Some byte) (ks idx))) bs)))
     = bs.
Proof.
  intros Hks Hbs. revert ks Hks. induction Hbs as [| b bs Hb _ IH]; intros ks Hks.
  - split; [constructor | reflexivity].
  - cbn [imap map]. destruct (Hks 0%nat) as (k & Ek & Hk).
    destruct (IH (fun idx => ks (S idx)) (fun idx => Hks (S idx))) as [IH1 IH2].
    pose proof (lxor_byte b k Hb Hk) as Hx.
    assert (Ex : to_uint8 (xor_number (Some b) (ks 0%nat)) = Z.lxor b k).
    { rewrite Ek. unfold to_uint8, xor_number. cbn. now apply Z.mod_small. }
    split.
    + constructor; [now rewrite Ex | exact IH1].
    + f_equal; [| exact IH2].
      rewrite Ex, Ek. unfold to_uint8, xor_number. cbn.
      rewrite lxor_cancel. now apply Z.mod_small.
Qed.

Lemma xor_twice (key : Z) (bs : bytes) :
  Forall (fun b => 0 <= b < 256) bs ->
  let bytesKey := keyBytes key in
  let encrypted :=
    imap (fun idx byte =>
            to_uint8 (xor_number (Some byte) (bytesKey !! (idx mod length bytesKey)%nat))) bs in
  Forall (fun b => 0 <= b < 256) encrypted
  /\ map to_uint8
       (imap (fun idx byte => xor_number byte (bytesKey !! (idx mod length bytesKey)%nat))
             (map Some encrypted))
     = bs.
Proof.
  intros Hbs.
  exact (xor_twice_stream
           (fun idx => keyBytes key !! (idx mod length (keyBytes key))%nat) bs
           (key_stream key) Hbs).
Qed.

(** *** The cipher *)

Lemma cipher_round_trip (message : jsstring) (key : Z) :
  well_formed message = true ->
  head message <> Some 0xFEFF ->
  decodeMessage (encodeMessage message key) key = message.
Proof.
  intros Hwf Hne. destruct (text_codec message Hwf Hne) as [Hcodec Hbytes].
  destruct (xor_twice key (TextEncoder_encode message) Hbytes) as [Henc Hdec].
  cbv zeta in Henc, Hdec.
  unfold decodeMessage.
  destruct (encodeMessage message key) as [| c cs] eqn:E.
  - (* nothing was written: the message has no byte *)
    unfold encodeMessage in E.
    destruct (TextEncoder_encode message) as [| b bs] eqn:Eb.
    + now rewrite <- Hcodec.
    + exfalso. cbn [imap map concat] in E. apply app_eq_nil in E as [E _].
      revert E. generalize (toString16 (to_uint8 (xor_number (Some b) (keyBytes key !! (0 mod length (keyBytes key))%nat)))).
      intros [| ? [| ? ?]]; discriminate.
  - rewrite <- E. unfold encodeMessage.
    rewrite (match_pairs_hex _ Henc). rewrite Hdec. exact Hcodec.
Qed.

End CipherFacts.

(** * The cipher: the specified property *)

Module CipherSpec.
Import Crypto CipherFacts Scenario.
Local Open Scope Z_scope.

(** C1, as the code has it.  For every message that is well-formed
    text (code units in range, every surrogate paired) and does not
    begin with U+FEFF, and every secret [key] in [0, 1_000_000),
    deciphering the enciphered message with the same key returns the
    message; the key stream is the key's four-byte big-endian
    representation, zero-padded on the left. *)
Theorem message_round_trip (message : jsstring) (key : Z) :
  well_formed message = true ->
  head message <> Some 0xFEFF ->
  0 <= key < 1000000 ->
  decodeMessage (encodeMessage message key) key = message
  /\ exists k1 k2 k3,
       keyBytes key = [0; k1; k2; k3]
       /\ 0 <= k1 < 256 /\ 0 <= k2 < 256 /\ 0 <= k3 < 256
       /\ key = (k1 * 256 + k2) * 256 + k3.
Proof.
  intros Hwf Hne Hkey. split; [now apply cipher_round_trip |].
  unfold keyBytes. rewrite Z.mod_small by lia.
  change 0xFF with (Z.ones 8). rewrite !Z.land_ones, !Z.shiftr_div_pow2 by lia.
  change (2 ^ 8) with 256. change (2 ^ 16) with 65536. change (2 ^ 24) with 16777216.
  exists ((key / 65536) mod 256), ((key / 256) mod 256), (key mod 256).
  split_and!; try (Z.div_mod_to_equations; lia).
  f_equal. Z.div_mod_to_equations; lia.
Qed.

Lemma message_round_trip_witness :
  well_formed smile = true /\ head smile <> Some 0xFEFF /\ 0 <= 123456 < 1000000
  /\ decodeMessage (encodeMessage smile 123456) 123456 = smile.
Proof.
  assert (Hw : well_formed smile = true) by reflexivity.
  assert (Hh : head smile <> Some 0xFEFF) by discriminate.
  assert (Hk : 0 <= 123456 < 1000000) by lia.
  split; [exact Hw | split; [exact Hh | split; [exact Hk |]]].
  exact (proj1 (message_round_trip smile 123456 Hw Hh Hk)).
Defined.

(** C1, as stated, fails.  The text decoder drops a leading U+FEFF,
    and the text encoder replaces an unpaired surrogate by U+FFFD: a
    message of either kind does not come back. *)
Lemma message_round_trip_fails :
  (0 <= 123456 < 1000000
   /\ decodeMessage (encodeMessage [0xFEFF; 97] 123456) 123456 = [97]
   /\ decodeMessage (encodeMessage [0xFEFF; 97] 123456) 123456 <> [0xFEFF; 97])
  /\ (decodeMessage (encodeMessage [0xD800; 97] 123456) 123456 = [0xFFFD; 97]
      /\ decodeMessage (encodeMessage [0xD800; 97] 123456) 123456 <> [0xD800; 97]).
Proof.
  split_and!; try lia; try (vm_compute; reflexivity); vm_compute; discriminate.
Qed.

End CipherSpec.

(** * The ledger: further properties *)

Module LedgerExtras.
Import AnonVerse LedgerFacts LedgerInv LedgerRuns LedgerTraces Scenario.
Section Extras.
Variable this : address.

(** *** One group at a time *)

Lemma read_answer (r : Call) (env : Env) (l : Ledger) (groupId : N) :
  is_view r = true ->
  group_of r l = Some groupId ->
  answer (call this r env l)
  = match r, groups l !! N.to_nat groupId with
    | _, None => inr (Revert "Invalid group")
    | GetGroup _, Some g =>
        inl (RGroup (name g, creator g, createdAt g, memberCount g, messageCount g, secret g))
    | GetGroupSecret _, Some g => inl (RHandle (secret g))
    | ListMembers _, Some _ => inl (RMembers (member_list l groupId))
    | IsMember _ account, Some _ => inl (RBool (member_flag l groupId account))
    | GetMessageCount _, Some _ => inl (RNumber (N.of_nat (length (message_list l groupId))))
    | GetMessage _ index, Some _ =>
        match message_list l groupId !! N.to_nat index with
        | Some m => inl (RMessage m)
        | None => inr (Revert "Invalid message index")
        end
    | _, Some _ => inr (Revert "Invalid group")
    end.
Proof.
  intros Hv Hg.
  assert (Hlt : (groupId <? group_count l) = bool_decide (is_Some (groups l !! N.to_nat groupId))).
  { destruct (N.ltb_spec groupId (group_count l)) as [H | H].
    - symmetry. apply bool_decide_eq_true. now apply group_lookup_lt.
    - symmetry. apply bool_decide_eq_false. apply group_lookup_ge in H. rewrite H.
      intros [? ?]. discriminate. }
  destruct r; try discriminate; cbn in Hg; injection Hg as ->; cbn [call]; unfold bind.
  - rewrite getGroup_reads. now destruct (groups l !! N.to_nat groupId).
  - rewrite getGroupSecret_reads. now destruct (groups l !! N.to_nat groupId).
  - rewrite listMembers_reads, Hlt. now destruct (groups l !! N.to_nat groupId).
  - rewrite isMember_reads, Hlt. now destruct (groups l !! N.to_nat groupId).
  - rewrite getMessageCount_reads, Hlt. now destruct (groups l !! N.to_nat groupId).
  - rewrite getMessage_reads, Hlt. destruct (groups l !! N.to_nat groupId); [| reflexivity].
    cbn. now destruct (message_list l groupId !! N.to_nat index).
Qed.

(** X1. A write touches one group.  Whatever a transaction does, every
    read about a group other than the one the transaction is about
    ([createGroup]: the group being created) answers after the
    transaction what it answered before. *)
Theorem writes_touch_one_group (l : Ledger) (env env' : Env) (c r : Call) (groupId : N) :
  is_view r = true ->
  group_of r l = Some groupId ->
  group_of c l <> Some groupId ->
  answer (call this r env' (step this env c l)) = answer (call this r env' l).
Proof.
  intros Hv Hr Hc.
  assert (Hr' : group_of r (step this env c l) = Some groupId)
    by (destruct r; try discriminate; exact Hr).
  rewrite (read_answer r env' _ groupId Hv Hr'), (read_answer r env' l groupId Hv Hr).
  destruct (step_has_shape this env c l)
    as [_ | name -> _ | groupId0 g0 -> H0 _ _ | groupId0 body g0 -> H0 _ _ _].
  - reflexivity.
  - assert (groupId <> group_count l) by (intros ->; now apply Hc).
    rewrite createGroup_post_group, createGroup_post_members.
    change (message_list (createGroup_post this name env l) groupId) with (message_list l groupId).
    rewrite !decide_False by assumption.
    destruct r; try discriminate; try reflexivity.
    rewrite createGroup_post_flag. rewrite decide_False by tauto. reflexivity.
  - assert (groupId <> groupId0) by (intros ->; now apply Hc).
    rewrite (joinGroup_post_group _ _ _ _ _ H0), joinGroup_post_members.
    change (message_list (joinGroup_post groupId0 g0 env l) groupId) with (message_list l groupId).
    rewrite !decide_False by assumption.
    destruct r; try discriminate; try reflexivity.
    rewrite joinGroup_post_flag. rewrite decide_False by tauto. reflexivity.
  - assert (groupId <> groupId0) by (intros ->; now apply Hc).
    rewrite (postMessage_post_group _ _ _ _ _ _ H0), postMessage_post_messages.
    change (member_list (postMessage_post groupId0 body g0 env l) groupId)
      with (member_list l groupId).
    rewrite !decide_False by assumption.
    destruct r; try discriminate; reflexivity.
Qed.

(** X2. Every group has its creator among its members.  In a
    reachable ledger the creator a group reads back with is a member
    of it, and the member count is at least one. *)
Theorem creator_is_member (l : Ledger) (env : Env) (groupId : N)
    (name : string) (creator : address) (createdAt members messages : N) (key : euint32) :
  reachable this l ->
  getGroup groupId env l = Ok (name, creator, createdAt, members, messages, key) l ->
  isMember groupId creator env l = Ok true l /\ 1 <= members.
Proof.
  intros R. pose proof (reachable_consistent this l R) as C.
  rewrite getGroup_reads.
  destruct (groups l !! N.to_nat groupId) as [g |] eqn:Hg; [| discriminate].
  intros [= <- <- <- <- <- <-].
  assert (Hlt : (groupId <? group_count l) = true)
    by (apply N.ltb_lt, group_lookup_lt; eauto).
  pose proof (creator_first _ _ C _ _ Hg) as Hh.
  pose proof (members_counted _ _ C _ _ Hg) as Hc.
  destruct (member_list l groupId) as [| a ms] eqn:E; [discriminate |].
  injection Hh as ->. split.
  - rewrite isMember_reads, Hlt. f_equal.
    apply (members_flagged _ _ C). rewrite E. apply list_elem_of_here.
  - rewrite Hc. cbn [length]. lia.
Qed.

(** *** Who wrote the messages *)

Lemma senders_are_members (l : Ledger) :
  reachable this l ->
  forall groupId m, m ∈ message_list l groupId -> member_flag l groupId (sender m) = true.
Proof.
  induction 1 as [| env c l R IH].
  - intros groupId m. unfold message_list. cbn. rewrite lookup_empty. cbn.
    intros H. inversion H.
  - pose proof (reachable_consistent this l R) as C.
    destruct (step_has_shape this env c l)
      as [_ | name _ _ | groupId0 g0 _ H0 _ _ | groupId0 body g0 _ H0 Hf _ _]; intros groupId m.
    + apply IH.
    + change (message_list (createGroup_post this name env l) groupId)
        with (message_list l groupId).
      intros H. rewrite createGroup_post_flag. case_decide; [reflexivity | now apply IH].
    + change (message_list (joinGroup_post groupId0 g0 env l) groupId)
        with (message_list l groupId).
      intros H. rewrite joinGroup_post_flag. case_decide; [reflexivity | now apply IH].
    + rewrite postMessage_post_messages.
      change (member_flag (postMessage_post groupId0 body g0 env l) groupId (sender m))
        with (member_flag l groupId (sender m)).
      case_decide as E; [| apply IH].
      subst. rewrite elem_of_app, list_elem_of_singleton. intros [H | ->]; [now apply IH |].
      exact Hf.
Qed.

(** X3. Only members wrote.  In a reachable ledger the sender of every
    message a group holds is a member of that group. *)
Theorem message_sender_is_member (l : Ledger) (env : Env) (groupId index : N) (m : Message) :
  reachable this l ->
  getMessage groupId index env l = Ok m l ->
  isMember groupId (sender m) env l = Ok true l.
Proof.
  intros R. rewrite getMessage_reads, isMember_reads.
  destruct (groupId <? group_count l); [| discriminate].
  destruct (message_list l groupId !! N.to_nat index) as [m0 |] eqn:Hm; [| discriminate].
  intros [= <-]. f_equal. apply (senders_are_members l R groupId).
  apply list_elem_of_lookup. eauto.
Qed.

(** X4. Membership is for good.  Once an identity is a member of a
    group, then after any further execution a [joinGroup] by that
    identity is refused with "Already joined", and a [postMessage] by
    it is never refused for lack of membership or of the group: an
    empty body gets "Message required", and any other body either goes
    through or hits the [uint256] ceiling of the message counter. *)
Theorem membership_is_permanent (l : Ledger) (tr : list (Env * Call)) (env env' : Env)
    (groupId : N) (body : string) :
  isMember groupId (msg_sender env') env l = Ok true l ->
  let l' := run this tr l in
  joinGroup groupId env' l' = Fail (Revert "Already joined")
  /\ (body = ""%string -> postMessage groupId body env' l' = Fail (Revert "Message required"))
  /\ (body <> ""%string ->
      (exists l'', postMessage groupId body env' l' = Ok tt l'')
      \/ postMessage groupId body env' l' = Fail (Panic 17)).
Proof.
  rewrite isMember_reads. destruct (groupId <? group_count l) eqn:Hlt; [| discriminate].
  intros [= Hf] l'. apply N.ltb_lt in Hlt.
  destruct (proj1 (group_lookup_lt l groupId) Hlt) as [g Hg].
  destruct (run_extends this tr l _ _ Hg) as (g' & Hg' & _ & _ & _ & _ & _ & _ & Hflag & _).
  fold l' in Hg', Hflag. specialize (Hflag _ Hf).
  assert (Hlt' : groupId < group_count l') by (apply group_lookup_lt; eauto).
  split_and!.
  - destruct (joinGroup_cases groupId env' l') as [[? _] | [(_ & _ & E) | (? & _ & Hf' & _)]];
      [lia | exact E | congruence].
  - intros ->.
    destruct (postMessage_cases groupId "" env' l')
      as [[? _] | [(_ & Hf' & _) | [(_ & _ & _ & E) | (? & _ & _ & Hb & _)]]];
      [lia | congruence | exact E | congruence].
  - intros Hb.
    destruct (postMessage_cases groupId body env' l')
      as [[? _] | [(_ & Hf' & _) | [(_ & _ & Hb' & _) | (? & _ & _ & _ & [[_ E] | [_ E]])]]];
      [lia | congruence | congruence | left; eauto | right; exact E].
Qed.

(** *** The member list as a history *)

Lemma step_member_list env c l groupId :
  consistent this l ->
  member_list (step this env c l) groupId
  = member_list l groupId
    ++ match c with
       | CreateGroup _ =>
           if succeeds this env c l && (group_count l =? groupId) then [msg_sender env] else []
       | JoinGroup g =>
           if succeeds this env c l && (g =? groupId) then [msg_sender env] else []
       | _ => []
       end.
Proof.
  intros C.
  destruct (step_has_shape this env c l)
    as [[Hs | Hv] | name -> Hn | groupId0 g0 -> H0 Hf Hm | groupId0 body g0 -> H0 _ _ _].
  - rewrite Hs. destruct c; now rewrite app_nil_r.
  - destruct c; try discriminate; now rewrite app_nil_r.
  - rewrite createGroup_post_members. unfold succeeds. cbn [call]. unfold bind.
    rewrite (createGroup_commits this name env l Hn). cbn.
    case_decide as E.
    + subst. now rewrite N.eqb_refl.
    + apply not_eq_sym in E. apply N.eqb_neq in E. rewrite E. now rewrite app_nil_r.
  - rewrite joinGroup_post_members. unfold succeeds. cbn [call]. unfold bind.
    rewrite (joinGroup_commits _ _ _ _ H0 Hf Hm). cbn.
    case_decide as E.
    + subst. now rewrite N.eqb_refl.
    + apply not_eq_sym in E. apply N.eqb_neq in E. rewrite E. now rewrite app_nil_r.
  - now rewrite app_nil_r.
Qed.

(** X5. The member list is the joining order.  After any execution
    from the deployed ledger, [listMembers] on an existing group
    returns the identities the execution added to it, in the order it
    added them: the creator first, then each joiner. *)
Theorem members_in_joining_order (tr : list (Env * Call)) (env : Env) (groupId : N)
    (ms : list N) :
  listMembers groupId env (run this tr initial) = Ok ms (run this tr initial) ->
  ms = members_added this groupId tr initial.
Proof.
  rewrite listMembers_reads. destruct (groupId <? _); [| discriminate]. intros [= <-].
  assert (G : forall l, consistent this l ->
            member_list (run this tr l) groupId
            = member_list l groupId ++ members_added this groupId tr l).
  { induction tr as [| [e c] tr IH]; intros l C; cbn [run members_added].
    - now rewrite app_nil_r.
    - rewrite IH by now apply step_consistent.
      rewrite step_member_list by exact C. now rewrite app_assoc. }
  rewrite G by apply initial_consistent.
  unfold member_list at 1. cbn. now rewrite lookup_empty.
Qed.

(** *** The event log *)

Lemma imap_insert_same {A B : Type} (f : nat -> A -> B) (l : list A) (i : nat) (x y : A) :
  l !! i = Some x -> f i y = f i x -> imap f (<[i := y]> l) = imap f l.
Proof.
  intros Hx Hf. apply list_eq. intros j. rewrite !list_lookup_imap.
  destruct (decide (j = i)) as [-> | Hne].
  - rewrite list_lookup_insert_eq by (now apply lookup_lt_Some in Hx). rewrite Hx. cbn.
    now rewrite Hf.
  - now rewrite list_lookup_insert_ne by congruence.
Qed.

(** X6. The event log tells the messages.  In a reachable ledger the
    [MessagePosted] events of a group, read in order, are exactly the
    messages the group holds: same senders, same bodies, same
    timestamps, same positions. *)
Theorem events_replay_messages (l : Ledger) (groupId : N) :
  reachable this l ->
  flat_map (replay_message groupId) (events l) = message_list l groupId.
Proof.
  induction 1 as [| env c l R IH].
  - unfold message_list. cbn. now rewrite lookup_empty.
  - destruct (step_has_shape this env c l)
      as [_ | name _ _ | groupId0 g0 _ H0 _ _ | groupId0 body g0 _ H0 _ _ _].
    + exact IH.
    + cbn [createGroup_post events]. rewrite flat_map_app, IH. cbn. now rewrite app_nil_r.
    + cbn [joinGroup_post events]. rewrite flat_map_app, IH. cbn. now rewrite app_nil_r.
    + rewrite postMessage_post_messages. cbn [postMessage_post events].
      rewrite flat_map_app, IH. cbn. rewrite app_nil_r.
      case_decide as E.
      * subst. now rewrite N.eqb_refl.
      * apply not_eq_sym in E. apply N.eqb_neq in E. rewrite E. now rewrite app_nil_r.
Qed.

(** X7. The event log tells the groups and their members.  In a
    reachable ledger the [GroupCreated] events, read in order, list
    the groups with their ids, creators, names and secret handles; and
    the [GroupCreated] and [MemberJoined] events of a group, read in
    order, give its member list. *)
Theorem events_replay_groups (l : Ledger) (groupId : N) :
  reachable this l ->
  flat_map replay_group (events l)
  = imap (fun i g => (N.of_nat i, creator g, name g, secret g)) (groups l)
  /\ flat_map (replay_member groupId) (events l) = member_list l groupId.
Proof.
  induction 1 as [| env c l R [IHg IHm]].
  - split; [reflexivity |]. unfold member_list. cbn. now rewrite lookup_empty.
  - destruct (step_has_shape this env c l)
      as [_ | name _ _ | groupId0 g0 _ H0 _ _ | groupId0 body g0 _ H0 _ _ _].
    + now split.
    + split.
      * cbn [createGroup_post events groups]. rewrite flat_map_app, IHg, imap_app. cbn.
        rewrite Nat.add_0_r. reflexivity.
      * rewrite createGroup_post_members. cbn [createGroup_post events].
        rewrite flat_map_app, IHm. cbn. rewrite app_nil_r.
        case_decide as E.
        -- subst. now rewrite N.eqb_refl.
        -- apply not_eq_sym in E. apply N.eqb_neq in E. rewrite E. now rewrite app_nil_r.
    + split.
      * cbn [joinGroup_post events groups]. rewrite flat_map_app, IHg. cbn. rewrite app_nil_r.
        symmetry. now apply imap_insert_same with (x := g0).
      * rewrite joinGroup_post_members. cbn [joinGroup_post events].
        rewrite flat_map_app, IHm. cbn. rewrite app_nil_r.
        case_decide as E.
        -- subst. now rewrite N.eqb_refl.
        -- apply not_eq_sym in E. apply N.eqb_neq in E. rewrite E. now rewrite app_nil_r.
    + split.
      * cbn [postMessage_post events groups]. rewrite flat_map_app, IHg. cbn. rewrite app_nil_r.
        symmetry. now apply imap_insert_same with (x := g0).
      * change (member_list (postMessage_post groupId0 body g0 env l) groupId)
          with (member_list l groupId).
        cbn [postMessage_post events]. rewrite flat_map_app, IHm. cbn. now rewrite app_nil_r.
Qed.

(** *** How a call can fail *)

Ltac listed := repeat first [apply list_elem_of_here | apply list_elem_of_further].

(** X8. Failures are the contract's own refusals.  In an execution
    from the deployed ledger that is shorter than the [uint256]
    ceiling, a call that fails fails with one of the reasons of the
    contract's [require] statements: no array access goes out of
    bounds and no counter overflows. *)
Theorem failures_are_refusals (tr : list (Env * Call)) (env : Env) (c : Call) (f : Failure) :
  N.of_nat (length tr) + 1 < MAX_UINT256 ->
  call this c env (run this tr initial) = Fail f ->
  exists reason, f = Revert reason /\ reason ∈ require_reasons.
Proof.
  intros Hlen. set (l := run this tr initial).
  assert (Hb : forall groupId g, groups l !! N.to_nat groupId = Some g ->
            memberCount g < MAX_UINT256 /\ messageCount g < MAX_UINT256).
  { intros groupId g Hg. destruct (counters_bounded_by_history this tr groupId g Hg). lia. }
  unfold require_reasons.
  destruct c; cbn [call]; unfold bind.
  - destruct (createGroup_cases this name0 env l) as [[_ E] | [_ E]]; rewrite E; [| discriminate].
    intros [= <-]. eexists. split; [reflexivity | listed].
  - destruct (joinGroup_cases groupId env l)
      as [[_ E] | [(_ & _ & E) | (g & Hg & _ & [[_ E] | [Hm _]])]];
      [rewrite E | rewrite E | rewrite E | destruct (Hb _ _ Hg); lia];
      [| | discriminate]; intros [= <-]; eexists; (split; [reflexivity | listed]).
  - destruct (postMessage_cases groupId cipherText0 env l)
      as [[_ E] | [(_ & _ & E) | [(_ & _ & _ & E) | (g & Hg & _ & _ & [[_ E] | [Hm _]])]]];
      [rewrite E | rewrite E | rewrite E | rewrite E | destruct (Hb _ _ Hg); lia];
      [| | | discriminate]; intros [= <-]; eexists; (split; [reflexivity | listed]).
  - rewrite getGroup_reads. destruct (groups l !! _); [discriminate |].
    intros [= <-]. eexists. split; [reflexivity | listed].
  - discriminate.
  - rewrite getGroupSecret_reads. destruct (groups l !! _); [discriminate |].
    intros [= <-]. eexists. split; [reflexivity | listed].
  - rewrite listMembers_reads. destruct (_ <? _); [discriminate |].
    intros [= <-]. eexists. split; [reflexivity | listed].
  - rewrite isMember_reads. destruct (_ <? _); [discriminate |].
    intros [= <-]. eexists. split; [reflexivity | listed].
  - rewrite getMessageCount_reads. destruct (_ <? _); [discriminate |].
    intros [= <-]. eexists. split; [reflexivity | listed].
  - rewrite getMessage_reads. destruct (_ <? _).
    + destruct (message_list l _ !! _); [discriminate |].
      intros [= <-]. eexists. split; [reflexivity | listed].
    + intros [= <-]. eexists. split; [reflexivity | listed].
Qed.

(** *** Who may ask for a secret *)

Lemma acl_entries_accounted (l : Ledger) :
  reachable this l ->
  (forall h a, (h, a) ∈ acl (fhe l) ->
     exists groupId g,
       groups l !! N.to_nat groupId = Some g /\ secret g = h
       /\ (a = this \/ member_flag l groupId a = true))
  /\ (forall i j gi gj,
        groups l !! N.to_nat i = Some gi -> groups l !! N.to_nat j = Some gj ->
        secret gi = secret gj -> i = j).
Proof.
  induction 1 as [| env c l R [IHa IHd]].
  - split.
    + intros h a H. cbn in H. now apply not_elem_of_empty in H.
    + intros i j gi gj H. cbn in H. now rewrite lookup_nil in H.
  - pose proof (reachable_consistent this l R) as C.
    destruct (step_has_shape this env c l)
      as [_ | name _ _ | groupId0 g0 _ H0 _ _ | groupId0 body g0 _ H0 _ _ _].
    + now split.
    + split.
      * intros h a. cbn [createGroup_post fhe acl].
        rewrite !elem_of_union, !elem_of_singleton.
        intros [[= -> ->] | [[= -> ->] | H]].
        -- exists (group_count l). eexists. rewrite createGroup_post_group.
           rewrite decide_True by reflexivity. split; [reflexivity |]. cbn. split; [reflexivity |].
           now left.
        -- exists (group_count l). eexists. rewrite createGroup_post_group.
           rewrite decide_True by reflexivity. split; [reflexivity |]. cbn. split; [reflexivity |].
           right. rewrite createGroup_post_flag. now rewrite decide_True.
        -- destruct (IHa _ _ H) as (groupId & g & Hg & Hs & Hm).
           exists groupId, g. rewrite createGroup_post_group, createGroup_post_flag.
           assert (groupId <> group_count l).
           { intros ->. rewrite (proj1 (group_lookup_ge l (group_count l))) in Hg by lia.
             discriminate. }
           rewrite decide_False by assumption. split; [exact Hg | split; [exact Hs |]].
           destruct Hm as [-> | Hm]; [now left | right]. case_decide; [reflexivity | exact Hm].
      * intros i j gi gj. rewrite !createGroup_post_group.
        case_decide as Ei; case_decide as Ej; subst; try reflexivity.
        -- intros [= <-] Hj. cbn. destruct (secrets_minted _ _ C _ _ Hj). lia.
        -- intros Hi [= <-]. cbn. destruct (secrets_minted _ _ C _ _ Hi). lia.
        -- apply IHd.
    + split.
      * intros h a. cbn [joinGroup_post fhe acl].
        rewrite elem_of_union, elem_of_singleton.
        intros [[= -> ->] | H].
        -- exists groupId0. eexists. rewrite (joinGroup_post_group _ _ _ _ _ H0).
           rewrite decide_True by reflexivity. split; [reflexivity |]. cbn. split; [reflexivity |].
           right. rewrite joinGroup_post_flag. now rewrite decide_True.
        -- destruct (IHa _ _ H) as (groupId & g & Hg & Hs & Hm).
           exists groupId. rewrite (joinGroup_post_group _ _ _ _ _ H0), joinGroup_post_flag.
           case_decide as E.
           ++ subst. rewrite H0 in Hg. injection Hg as <-. eexists. split; [reflexivity |].
              cbn. split; [reflexivity |].
              destruct Hm as [-> | Hm]; [now left | right]. case_decide; [reflexivity | exact Hm].
           ++ exists g. split; [exact Hg | split; [exact Hs |]].
              destruct Hm as [-> | Hm]; [now left | right]. case_decide; [reflexivity | exact Hm].
      * intros i j gi gj. rewrite !(joinGroup_post_group _ _ _ _ _ H0).
        case_decide as Ei; case_decide as Ej; subst; try reflexivity.
        -- intros [= <-] Hj. cbn. intros E. now apply (IHd _ _ _ _ H0 Hj).
        -- intros Hi [= <-]. cbn. intros E. now apply (IHd _ _ _ _ Hi H0).
        -- apply IHd.
    + split.
      * intros h a. cbn [postMessage_post fhe]. intros H.
        destruct (IHa _ _ H) as (groupId & g & Hg & Hs & Hm).
        exists groupId. rewrite (postMessage_post_group _ _ _ _ _ _ H0).
        change (member_flag (postMessage_post groupId0 body g0 env l) groupId a)
          with (member_flag l groupId a).
        case_decide as E.
        -- subst. rewrite H0 in Hg. injection Hg as <-. eexists. split; [reflexivity |].
           cbn. now split.
        -- exists g. now split_and!.
      * intros i j gi gj. rewrite !(postMessage_post_group _ _ _ _ _ _ H0).
        case_decide as Ei; case_decide as Ej; subst; try reflexivity.
        -- intros [= <-] Hj. cbn. intros E. now apply (IHd _ _ _ _ H0 Hj).
        -- intros Hi [= <-]. cbn. intros E. now apply (IHd _ _ _ _ Hi H0).
        -- apply IHd.
Qed.

(** X9. Access goes to members only.  In a reachable ledger, whoever
    is on the access control list of a group's secret is a member of
    that group or the ledger itself: the contract grants access to a
    caller only as it makes that caller a member.  (The list is the
    confidential value store's, whose handles are fresh at creation.) *)
Theorem acl_only_members (l : Ledger) (env : Env) (groupId : N) (key : euint32)
    (account : address) :
  reachable this l ->
  getGroupSecret groupId env l = Ok key l ->
  (key, account) ∈ acl (fhe l) ->
  account = this \/ isMember groupId account env l = Ok true l.
Proof.
  intros R. destruct (acl_entries_accounted l R) as [Ha Hd].
  rewrite getGroupSecret_reads, isMember_reads.
  destruct (groups l !! N.to_nat groupId) as [g |] eqn:Hg; [| discriminate].
  assert (Hlt : (groupId <? group_count l) = true)
    by (apply N.ltb_lt, group_lookup_lt; eauto).
  rewrite Hlt. intros [= <-] Hin.
  destruct (Ha _ _ Hin) as (groupId' & g' & Hg' & Hs & Hm).
  assert (groupId' = groupId) as -> by now apply (Hd _ _ _ _ Hg' Hg).
  destruct Hm as [-> | Hm]; [now left | right; now rewrite Hm].
Qed.

End Extras.

(** *** The theorems at work *)

Lemma two_rooms_reachable : reachable 99 (run 99 two_rooms initial).
Proof. apply run_reachable. constructor. Defined.

Lemma demo_ledger_reachable : reachable 99 (run 99 demo initial).
Proof. apply run_reachable. constructor. Defined.

Lemma writes_touch_one_group_witness :
  is_view (GetGroup 0) = true
  /\ group_of (GetGroup 0) (run 99 two_rooms initial) = Some 0
  /\ group_of (PostMessage 1 "again") (run 99 two_rooms initial) <> Some 0
  /\ answer (call 99 (GetGroup 0) alice
               (step 99 carol (PostMessage 1 "again") (run 99 two_rooms initial)))
     = answer (call 99 (GetGroup 0) alice (run 99 two_rooms initial)).
Proof.
  assert (H1 : is_view (GetGroup 0) = true) by reflexivity.
  assert (H2 : group_of (GetGroup 0) (run 99 two_rooms initial) = Some 0) by reflexivity.
  assert (H3 : group_of (PostMessage 1 "again") (run 99 two_rooms initial) <> Some 0)
    by discriminate.
  split; [exact H1 | split; [exact H2 | split; [exact H3 |]]].
  exact (writes_touch_one_group 99 (run 99 two_rooms initial) carol alice
           (PostMessage 1 "again") (GetGroup 0) 0 H1 H2 H3).
Defined.

Lemma creator_is_member_witness :
  reachable 99 (run 99 demo initial)
  /\ getGroup 0 carol (run 99 demo initial)
     = Ok ("Alpha"%string, 7, 100, 2, 1, 1) (run 99 demo initial)
  /\ isMember 0 7 carol (run 99 demo initial) = Ok true (run 99 demo initial)
  /\ 1 <= 2.
Proof.
  assert (Hg : getGroup 0 carol (run 99 demo initial)
               = Ok ("Alpha"%string, 7, 100, 2, 1, 1) (run 99 demo initial))
    by (vm_compute; reflexivity).
  split; [exact demo_ledger_reachable | split; [exact Hg |]].
  exact (creator_is_member 99 (run 99 demo initial) carol 0 "Alpha" 7 100 2 1 1
           demo_ledger_reachable Hg).
Defined.

Lemma message_sender_is_member_witness :
  reachable 99 (run 99 demo initial)
  /\ getMessage 0 0 carol (run 99 demo initial)
     = Ok (mkMessage 8 "abcd" 101) (run 99 demo initial)
  /\ isMember 0 8 carol (run 99 demo initial) = Ok true (run 99 demo initial).
Proof.
  assert (Hm : getMessage 0 0 carol (run 99 demo initial)
               = Ok (mkMessage 8 "abcd" 101) (run 99 demo initial))
    by (vm_compute; reflexivity).
  split; [exact demo_ledger_reachable | split; [exact Hm |]].
  exact (message_sender_is_member 99 (run 99 demo initial) carol 0 0 (mkMessage 8 "abcd" 101)
           demo_ledger_reachable Hm).
Defined.

Lemma membership_is_permanent_witness :
  isMember 0 (msg_sender bob) alice (run 99 demo initial) = Ok true (run 99 demo initial)
  /\ joinGroup 0 bob (run 99 [(carol, JoinGroup 0)] (run 99 demo initial))
     = Fail (Revert "Already joined").
Proof.
  assert (Hm : isMember 0 (msg_sender bob) alice (run 99 demo initial)
               = Ok true (run 99 demo initial))
    by (vm_compute; reflexivity).
  split; [exact Hm |].
  exact (proj1 (membership_is_permanent 99 (run 99 demo initial) [(carol, JoinGroup 0)]
                  alice bob 0 "x" Hm)).
Defined.

Lemma members_in_joining_order_witness :
  listMembers 0 carol (run 99 demo initial) = Ok [7; 8] (run 99 demo initial)
  /\ [7; 8] = members_added 99 0 demo initial.
Proof.
  assert (Hl : listMembers 0 carol (run 99 demo initial) = Ok [7; 8] (run 99 demo initial))
    by (vm_compute; reflexivity).
  split; [exact Hl |].
  exact (members_in_joining_order 99 demo carol 0 [7; 8] Hl).
Defined.

Lemma events_replay_messages_witness :
  reachable 99 (run 99 demo initial)
  /\ flat_map (replay_message 0) (events (run 99 demo initial))
     = message_list (run 99 demo initial) 0.
Proof.
  split; [exact demo_ledger_reachable |].
  exact (events_replay_messages 99 (run 99 demo initial) 0 demo_ledger_reachable).
Defined.

Lemma events_replay_groups_witness :
  reachable 99 (run 99 two_rooms initial)
  /\ flat_map replay_group (events (run 99 two_rooms initial))
     = imap (fun i g => (N.of_nat i, creator g, name g, secret g))
         (groups (run 99 two_rooms initial))
  /\ flat_map (replay_member 1) (events (run 99 two_rooms initial))
     = member_list (run 99 two_rooms initial) 1.
Proof.
  split; [exact two_rooms_reachable |].
  exact (events_replay_groups 99 (run 99 two_rooms initial) 1 two_rooms_reachable).
Defined.

Lemma failures_are_refusals_witness :
  N.of_nat (length demo) + 1 < MAX_UINT256
  /\ call 99 (PostMessage 0 "x") carol (run 99 demo initial) = Fail (Revert "Join first")
  /\ exists reason, Revert "Join first" = Revert reason /\ reason ∈ require_reasons.
Proof.
  assert (Hl : N.of_nat (length demo) + 1 < MAX_UINT256) by (vm_compute; reflexivity).
  assert (Hf : call 99 (PostMessage 0 "x") carol (run 99 demo initial)
               = Fail (Revert "Join first"))
    by (vm_compute; reflexivity).
  split; [exact Hl | split; [exact Hf |]].
  exact (failures_are_refusals 99 demo carol (PostMessage 0 "x") (Revert "Join first") Hl Hf).
Defined.

Lemma acl_only_members_witness :
  reachable 99 (run 99 demo initial)
  /\ getGroupSecret 0 carol (run 99 demo initial) = Ok 1 (run 99 demo initial)
  /\ (1, 8) ∈ acl (fhe (run 99 demo initial))
  /\ (8 = 99 \/ isMember 0 8 carol (run 99 demo initial) = Ok true (run 99 demo initial)).
Proof.
  assert (Hs : getGroupSecret 0 carol (run 99 demo initial) = Ok 1 (run 99 demo initial))
    by (vm_compute; reflexivity).
  assert (Ha : (1, 8) ∈ acl (fhe (run 99 demo initial)))
    by (vm_compute; reflexivity).
  split; [exact demo_ledger_reachable | split; [exact Hs | split; [exact Ha |]]].
  exact (acl_only_members 99 (run 99 demo initial) carol 0 1 8 demo_ledger_reachable Hs Ha).
Defined.

End LedgerExtras.

(** * The cipher: further properties *)

Module CipherExtras.
Import Crypto CipherFacts TestHelpers Scenario.
Local Open Scope Z_scope.

(** *** Any string, well-formed or not *)

Lemma replacement_scalar : scalar_value 0xFFFD.
Proof. right. lia. Qed.

Lemma to_scalars_any (n : nat) (s : jsstring) :
  (length s <= n)%nat -> code_units s -> Forall scalar_value (to_scalars s).
Proof.
  revert s. induction n as [| n IH]; intros s Hlen Hs.
  { destruct s; [constructor | cbn in Hlen; lia]. }
  destruct s as [| u rest]; [constructor |].
  apply Forall_cons in Hs as [Hu Hrest]. cbn [to_scalars].
  destruct (is_high_surrogate u) eqn:Hh.
  - destruct rest as [| v rest']; [constructor; [apply replacement_scalar | constructor] |].
    destruct (is_low_surrogate v) eqn:Hv.
    + destruct (surrogate_pair u v Hh Hv) as (Hp & _). constructor; [exact Hp |].
      apply IH; [cbn in Hlen; lia |]. now apply Forall_cons in Hrest as [_ ?].
    + constructor; [apply replacement_scalar |]. apply IH; [cbn in Hlen |- *; lia | exact Hrest].
  - destruct (is_low_surrogate u) eqn:Hl.
    + constructor; [apply replacement_scalar |]. apply IH; [cbn in Hlen; lia | exact Hrest].
    + destruct (plain_unit u Hu Hh Hl) as [Hp _]. constructor; [exact Hp |].
      apply IH; [cbn in Hlen; lia | exact Hrest].
Qed.

Lemma TextEncoder_bytes (s : jsstring) :
  code_units s -> Forall (fun b => 0 <= b < 256) (TextEncoder_encode s).
Proof.
  intros Hs. pose proof (to_scalars_any (length s) s (le_n _) Hs) as H.
  unfold TextEncoder_encode. induction H as [| cp cps Hcp _ IH]; [constructor |].
  cbn [flat_map]. apply Forall_app. split; [now apply encoded_bytes | exact IH].
Qed.

Lemma hex_digits (v : Z) :
  0 <= v < 256 ->
  padStart2 (toString16 v) = [hex_digit (v / 16); hex_digit (v mod 16)]
  /\ is_lower_hex (hex_digit (v / 16)) = true
  /\ is_lower_hex (hex_digit (v mod 16)) = true.
Proof.
  intros Hv.
  pose proof (below_256
    (fun v => match padStart2 (toString16 v) with
              | [a; b] =>
                  (a =? hex_digit (v / 16)) && (b =? hex_digit (v mod 16))
                  && is_lower_hex a && is_lower_hex b
              | _ => false
              end) ltac:(vm_compute; reflexivity) v Hv) as H.
  cbv beta in H.
  destruct (padStart2 (toString16 v)) as [| a [| b [| ? ?]]]; try discriminate.
  apply andb_prop in H as [H H4]. apply andb_prop in H as [H H3].
  apply andb_prop in H as [H1 H2]. apply Z.eqb_eq in H1, H2. subst. now split_and!.
Qed.

Lemma encrypted_bytes (message : jsstring) (key : Z) :
  code_units message ->
  Forall (fun b => 0 <= b < 256)
    (imap (fun idx byte =>
             to_uint8 (xor_number (Some byte)
                         (keyBytes key !! (idx mod length (keyBytes key))%nat)))
       (TextEncoder_encode message)).
Proof.
  intros Hs. exact (proj1 (xor_twice key _ (TextEncoder_bytes message Hs))).
Qed.

(** X10. The ciphertext is lowercase hexadecimal, two digits per
    byte.  For every string and key, [encodeMessage] returns only the
    characters 0-9 and a-f, twice as many as the message has UTF-8
    bytes. *)
Theorem ciphertext_is_hex (message : jsstring) (key : Z) :
  code_units message ->
  Forall (fun u => is_lower_hex u = true) (encodeMessage message key)
  /\ length (encodeMessage message key) = (2 * length (TextEncoder_encode message))%nat.
Proof.
  intros Hs. pose proof (encrypted_bytes message key Hs) as He.
  unfold encodeMessage.
  replace (length (TextEncoder_encode message))
    with (length (imap (fun idx byte =>
             to_uint8 (xor_number (Some byte)
                         (keyBytes key !! (idx mod length (keyBytes key))%nat)))
            (TextEncoder_encode message))) by apply length_imap.
  induction He as [| v vs Hv _ [IH1 IH2]]; [split; [constructor | reflexivity] |].
  destruct (hex_digits v Hv) as (E & H1 & H2).
  cbn [map concat]. rewrite E. split.
  - cbn [app]. constructor; [exact H1 |]. constructor; [exact H2 | exact IH1].
  - cbn [app length]. rewrite IH2. lia.
Qed.

(** X11. The cipher itself loses nothing.  For every string and every
    key, deciphering what was enciphered gives what the text decoder
    makes of the text encoder's bytes: whatever differs from the
    message comes from the text codec, none of it from the XOR or the
    hexadecimal form. *)
Theorem cipher_is_lossless (message : jsstring) (key : Z) :
  code_units message ->
  decodeMessage (encodeMessage message key) key
  = TextDecoder_decode (TextEncoder_encode message).
Proof.
  intros Hs. pose proof (TextEncoder_bytes message Hs) as Hbytes.
  destruct (xor_twice key (TextEncoder_encode message) Hbytes) as [Henc Hdec].
  cbv zeta in Henc, Hdec. unfold decodeMessage.
  destruct (encodeMessage message key) as [| c cs] eqn:E.
  - pose proof (proj2 (ciphertext_is_hex message key Hs)) as Hl. rewrite E in Hl.
    destruct (TextEncoder_encode message); [reflexivity | discriminate].
  - rewrite <- E. unfold encodeMessage.
    rewrite (match_pairs_hex _ Henc). now rewrite Hdec.
Qed.

Lemma encode_nonempty (cp : Z) : utf8_encode_scalar cp <> [].
Proof.
  unfold utf8_encode_scalar.
  destruct (cp <=? 0x7F); [discriminate |].
  destruct (cp <=? 0x7FF); [discriminate |].
  destruct (cp <=? 0xFFFF); discriminate.
Qed.

(** X12. Empty in, empty out, and only then.  [encodeMessage] returns
    the empty string exactly on the empty message, whatever the key;
    and [decodeMessage] returns the empty string on the empty
    ciphertext. *)
Theorem empty_only_from_empty (message : jsstring) (key : Z) :
  code_units message ->
  (encodeMessage message key = [] <-> message = [])
  /\ decodeMessage [] key = [].
Proof.
  intros Hs. split; [| reflexivity]. split.
  - intros E. pose proof (proj2 (ciphertext_is_hex message key Hs)) as Hl.
    rewrite E in Hl. cbn in Hl.
    destruct (TextEncoder_encode message) as [| b bs] eqn:Eb; [| cbn in Hl; lia].
    unfold TextEncoder_encode in Eb.
    destruct message as [| u rest]; [reflexivity |]. exfalso.
    assert (Hne : exists cp cps, to_scalars (u :: rest) = cp :: cps).
    { cbn [to_scalars]. destruct (is_high_surrogate u).
      - destruct rest as [| v rest']; [eauto |]. destruct (is_low_surrogate v); eauto.
      - destruct (is_low_surrogate u); eauto. }
    destruct Hne as (cp & cps & Ec). rewrite Ec in Eb. cbn [flat_map] in Eb.
    apply app_eq_nil in Eb as [Eb _]. now apply encode_nonempty in Eb.
  - intros ->. reflexivity.
Qed.

(** *** What a six-digit key leaves in the clear *)

Lemma hex_lookup (vs : bytes) (j : nat) (v : Z) :
  Forall (fun b => 0 <= b < 256) vs ->
  vs !! j = Some v ->
  concat (map (fun val => padStart2 (toString16 val)) vs) !! (2 * j)%nat
  = Some (hex_digit (v / 16))
  /\ concat (map (fun val => padStart2 (toString16 val)) vs) !! (2 * j + 1)%nat
     = Some (hex_digit (v mod 16)).
Proof.
  intros Hvs. revert j. induction Hvs as [| w ws Hw _ IH]; intros j Hj; [discriminate |].
  destruct (hex_digits w Hw) as (E & _). cbn [map concat]. rewrite E.
  destruct j as [| j].
  - injection Hj as ->. now split.
  - cbn in Hj. destruct (IH j Hj) as [I1 I2].
    replace (2 * S j)%nat with (S (S (2 * j))) by lia.
    replace (S (S (2 * j)) + 1)%nat with (S (S (2 * j + 1))) by lia.
    now split.
Qed.

(** X13. Every fourth byte travels unenciphered.  A key below 2^24,
    as every six-digit secret is, has a zero first byte; so for such a
    key the bytes of the message at positions 0, 4, 8, ... appear in
    the ciphertext as their own two hexadecimal digits. *)
Theorem fourth_bytes_in_clear (message : jsstring) (key : Z) (i : nat) (b : Z) :
  code_units message ->
  0 <= key < 2 ^ 24 ->
  TextEncoder_encode message !! (4 * i)%nat = Some b ->
  encodeMessage message key !! (8 * i)%nat = Some (hex_digit (b / 16))
  /\ encodeMessage message key !! (8 * i + 1)%nat = Some (hex_digit (b mod 16)).
Proof.
  intros Hs Hkey Hb. pose proof (encrypted_bytes message key Hs) as He.
  pose proof (TextEncoder_bytes message Hs) as Hbytes.
  assert (Hrange : 0 <= b < 256).
  { rewrite Forall_lookup in Hbytes. exact (Hbytes _ _ Hb). }
  unfold encodeMessage. replace (8 * i)%nat with (2 * (4 * i))%nat by lia.
  apply hex_lookup; [exact He |].
  rewrite list_lookup_imap, Hb. cbn [fmap option_fmap option_map]. f_equal.
  assert (Hk : keyBytes key !! (4 * i mod length (keyBytes key))%nat = Some 0).
  { destruct (keyBytes_bytes key) as (k0 & k1 & k2 & k3 & E & _).
    rewrite E. cbn [length].
    replace (4 * i mod 4)%nat with 0%nat
      by (symmetry; rewrite Nat.mul_comm; apply Nat.Div0.mod_mul).
    cbn. f_equal. unfold keyBytes in E. injection E as <- _ _ _.
    rewrite Z.mod_small by lia. rewrite Z.shiftr_div_pow2 by lia.
    rewrite Z.div_small by lia. reflexivity. }
  rewrite Hk. unfold to_uint8, xor_number. cbn [default]. rewrite Z.lxor_0_r.
  now apply Z.mod_small.
Qed.

(** *** The test's own encoder *)

(** X14. The test enciphers as the application does.  On every string
    and key the test's [xorEncrypt] returns the very ciphertext
    [encodeMessage] returns. *)
Theorem xorEncrypt_agrees (message : jsstring) (key : Z) :
  code_units message ->
  xorEncrypt message key = encodeMessage message key.
Proof.
  intros Hs. pose proof (encrypted_bytes message key Hs) as He.
  unfold xorEncrypt, encodeMessage, Buffer_toString_hex. cbv zeta.
  induction He as [| v vs Hv _ IH]; [reflexivity |].
  destruct (hex_digits v Hv) as (E & _).
  cbn [flat_map map concat]. now rewrite E, IH.
Qed.

Lemma smile_code_units : code_units smile.
Proof. unfold code_units, smile. repeat (constructor; [lia |]). constructor. Defined.

Lemma ciphertext_is_hex_witness :
  code_units smile
  /\ Forall (fun u => is_lower_hex u = true) (encodeMessage smile 123456)
  /\ length (encodeMessage smile 123456) = (2 * length (TextEncoder_encode smile))%nat.
Proof.
  split; [exact smile_code_units |].
  exact (ciphertext_is_hex smile 123456 smile_code_units).
Defined.

Lemma cipher_is_lossless_witness :
  code_units [0xD800; 97]
  /\ decodeMessage (encodeMessage [0xD800; 97] 123456) 123456
     = TextDecoder_decode (TextEncoder_encode [0xD800; 97]).
Proof.
  assert (H : code_units [0xD800; 97]).
  { unfold code_units. repeat (constructor; [lia |]). constructor. }
  split; [exact H |].
  exact (cipher_is_lossless [0xD800; 97] 123456 H).
Defined.

Lemma empty_only_from_empty_witness :
  code_units smile /\ (encodeMessage smile 123456 = [] <-> smile = []).
Proof.
  split; [exact smile_code_units |].
  exact (proj1 (empty_only_from_empty smile 123456 smile_code_units)).
Defined.

Lemma fourth_bytes_in_clear_witness :
  code_units smile
  /\ 0 <= 123456 < 2 ^ 24
  /\ TextEncoder_encode smile !! (4 * 1)%nat = Some 169
  /\ encodeMessage smile 123456 !! (8 * 1)%nat = Some (hex_digit (169 / 16))
  /\ encodeMessage smile 123456 !! (8 * 1 + 1)%nat = Some (hex_digit (169 mod 16)).
Proof.
  assert (Hk : 0 <= 123456 < 2 ^ 24) by lia.
  assert (Hb : TextEncoder_encode smile !! (4 * 1)%nat = Some 169) by reflexivity.
  split; [exact smile_code_units | split; [exact Hk | split; [exact Hb |]]].
  exact (fourth_bytes_in_clear smile 123456 1 169 smile_code_units Hk Hb).
Defined.

Lemma xorEncrypt_agrees_witness :
  code_units smile /\ xorEncrypt smile 123456 = encodeMessage smile 123456.
Proof.
  split; [exact smile_code_units |].
  exact (xorEncrypt_agrees smile 123456 smile_code_units).
Defined.

End CipherExtras.
